

(** * next-dynamic-metadata: route matching, metadata resolution, hydration

    A shallow embedding of [src/utils/resolveMetadata.ts] (route matching
    and metadata resolution), [src/types.ts] (the data model) and
    [src/client/MetadataHydrator.ts] (the client-side document patches),
    and of the server-side integration the README gives ([getCurrentPath]
    and [generateMetadata]), together with the part of the host language
    the code relies on:
    non-Unicode regular expressions ([new RegExp(p).test(s)] and
    [String.prototype.replace] with a global pattern), promises, and the
    part of the DOM the hydrator touches.

    Strings are sequences of code units; the embedding covers code units
    below 256, written as [ascii]. *)

From Stdlib Require Import String Ascii List Bool Arith ZArith Lia.

Import ListNotations.

Open Scope string_scope.
Open Scope list_scope.
Open Scope nat_scope.

Set Warnings "-register-all".

(** ** Completions

    A computation of the host language either completes normally, throws,
    or uses a construct this development does not model. *)

Inductive thrown : Type :=
| SyntaxError                      (* raised by [new RegExp] *)
| UserError (reason : string).     (* raised or rejected by host code *)

Inductive completion (A : Type) : Type :=
| Normal (a : A)
| Throw (e : thrown)
| Unmodelled.

Arguments Normal {A} a.
Arguments Throw {A} e.
Arguments Unmodelled {A}.

Definition bind {A B : Type} (m : completion A) (k : A -> completion B)
  : completion B :=
  match m with
  | Normal a => k a
  | Throw e => Throw e
  | Unmodelled => Unmodelled
  end.

Notation "x <- m ;; k" := (bind m (fun x => k))
  (at level 61, m at next level, right associativity).

Notation "' p <- m ;; k" := (bind m (fun x => match x with p => k end))
  (at level 61, p pattern, m at next level, right associativity).

(** ** Regular expressions *)

Module RegExp.

Definition chars := list ascii.

Inductive class_item : Type :=
| ClassChar (c : ascii)
| ClassRange (lo hi : ascii)
| ClassDigit (negated : bool)      (* \d \D *)
| ClassWord (negated : bool)       (* \w \W *)
| ClassSpace (negated : bool).     (* \s \S *)

Inductive regex : Type :=
| REmpty
| RChar (c : ascii)
| RDot
| RClass (negated : bool) (items : list class_item)
| RBol                                            (* ^ *)
| REol                                            (* $ *)
| RSeq (r1 r2 : regex)
| RAlt (r1 r2 : regex)
| RGroup (n : nat) (r : regex)                    (* n-th capturing group *)
| RQuant (min : nat) (max : option nat) (greedy : bool) (r : regex).

(** *** Character tests *)

Definition code (c : ascii) : nat := nat_of_ascii c.

Definition in_range (lo hi c : ascii) : bool :=
  (code lo <=? code c) && (code c <=? code hi).

Definition is_digit (c : ascii) : bool := in_range "0" "9" c.

Definition is_word (c : ascii) : bool :=
  in_range "a" "z" c || in_range "A" "Z" c || is_digit c || (c =? "_")%char.

(* White space and line terminators below code unit 256. *)
Definition is_space (c : ascii) : bool :=
  (9 <=? code c) && (code c <=? 13) || (code c =? 32) || (code c =? 160).

Definition is_line_terminator (c : ascii) : bool :=
  (code c =? 10) || (code c =? 13).

Definition item_matches (c : ascii) (i : class_item) : bool :=
  match i with
  | ClassChar a => (c =? a)%char
  | ClassRange lo hi => in_range lo hi c
  | ClassDigit neg => xorb neg (is_digit c)
  | ClassWord neg => xorb neg (is_word c)
  | ClassSpace neg => xorb neg (is_space c)
  end.

Definition class_matches (negated : bool) (items : list class_item)
    (c : ascii) : bool :=
  xorb negated (existsb (item_matches c) items).

(** *** The backtracking matcher

    The matcher follows the continuation-passing semantics of the language
    definition.  A state holds the input that is still to be read and the
    captures made so far; the end index of a state is the length of the
    whole input minus the length of [rest]. *)

Definition captures := list (nat * chars).

Record mstate : Type := MState { rest : chars; caps : captures }.

Definition cont := mstate -> option mstate.

Fixpoint clear_capture (n : nat) (cs : captures) : captures :=
  match cs with
  | [] => []
  | (m, s) :: cs' =>
      if m =? n then clear_capture n cs' else (m, s) :: clear_capture n cs'
  end.

Definition set_capture (n : nat) (s : chars) (cs : captures) : captures :=
  (n, s) :: clear_capture n cs.

Fixpoint get_capture (n : nat) (cs : captures) : option chars :=
  match cs with
  | [] => None
  | (m, s) :: cs' => if m =? n then Some s else get_capture n cs'
  end.

Fixpoint groups_of (r : regex) : list nat :=
  match r with
  | RSeq r1 r2 | RAlt r1 r2 => groups_of r1 ++ groups_of r2
  | RGroup n r' => n :: groups_of r'
  | RQuant _ _ _ r' => groups_of r'
  | _ => []
  end.

Definition clear_captures (ns : list nat) (x : mstate) : mstate :=
  MState (rest x) (fold_right clear_capture (caps x) ns).

Definition max_is_zero (max : option nat) : bool :=
  match max with Some 0 => true | _ => false end.

Definition max_pred (max : option nat) : option nat := option_map pred max.

(* The iterations of a quantifier once its minimum is reached.  An
   iteration that does not move the end index forward is rejected, so
   [S (length (rest x))] steps are enough ([repeat_free_fuel]). *)
Fixpoint repeat_free (m : mstate -> cont -> option mstate) (grp : list nat)
    (fuel : nat) (max : option nat) (greedy : bool) (x : mstate) (c : cont)
  : option mstate :=
  match fuel with
  | 0 => None
  | S fuel' =>
      if max_is_zero max then c x else
      let d := fun y =>
        if length (rest y) <? length (rest x)
        then repeat_free m grp fuel' (max_pred max) greedy y c
        else None in
      let xr := clear_captures grp x in
      if greedy then
        match m xr d with Some z => Some z | None => c x end
      else
        match c x with Some z => Some z | None => m xr d end
  end.

(* The mandatory iterations, then the free ones. *)
Fixpoint repeat_matcher (m : mstate -> cont -> option mstate)
    (grp : list nat) (min : nat) (max : option nat) (greedy : bool)
    (x : mstate) (c : cont) : option mstate :=
  match min with
  | 0 => repeat_free m grp (S (length (rest x))) max greedy x c
  | S min' =>
      if max_is_zero max then c x else
      m (clear_captures grp x)
        (fun y => repeat_matcher m grp min' (max_pred max) greedy y c)
  end.

Fixpoint take_chars (n : nat) (s : chars) : chars :=
  match n, s with
  | S n', a :: s' => a :: take_chars n' s'
  | _, _ => []
  end.

Definition one_char (p : ascii -> bool) (x : mstate) (c : cont)
  : option mstate :=
  match rest x with
  | a :: tl => if p a then c (MState tl (caps x)) else None
  | [] => None
  end.

Fixpoint matcher (input : chars) (r : regex) {struct r}
  : mstate -> cont -> option mstate :=
  match r with
  | REmpty => fun x c => c x
  | RChar a => one_char (fun b => (b =? a)%char)
  | RDot => one_char (fun b => negb (is_line_terminator b))
  | RClass neg items => one_char (class_matches neg items)
  | RBol => fun x c =>
      if length (rest x) =? length input then c x else None
  | REol => fun x c =>
      match rest x with [] => c x | _ :: _ => None end
  | RSeq r1 r2 => fun x c =>
      matcher input r1 x (fun y => matcher input r2 y c)
  | RAlt r1 r2 => fun x c =>
      match matcher input r1 x c with
      | Some z => Some z
      | None => matcher input r2 x c
      end
  | RGroup n r' => fun x c =>
      matcher input r' x (fun y =>
        let s := take_chars (length (rest x) - length (rest y)) (rest x) in
        c (MState (rest y) (set_capture n s (caps y))))
  | RQuant min max greedy r' =>
      repeat_matcher (matcher input r') (groups_of r') min max greedy
  end.

(* One attempt at the position where [suffix] starts. *)
Definition match_at (r : regex) (input suffix : chars) : option mstate :=
  matcher input r (MState suffix []) (fun y => Some y).

(* The leftmost position, from the one where [suffix] starts to the end of
   the input, at which the pattern matches: what was skipped on the way,
   and the final state. *)
Fixpoint search (r : regex) (input suffix : chars)
  : option (chars * mstate) :=
  match match_at r input suffix with
  | Some y => Some ([], y)
  | None =>
      match suffix with
      | [] => None
      | a :: tl =>
          match search r input tl with
          | Some (skipped, y) => Some (a :: skipped, y)
          | None => None
          end
      end
  end.

(* [exec] without the global or sticky flag starts at position 0. *)
Definition exec (r : regex) (s : string) : option mstate :=
  option_map snd (search r (list_ascii_of_string s) (list_ascii_of_string s)).

Definition test (r : regex) (s : string) : bool :=
  match exec r s with Some _ => true | None => false end.

(* [s.replace(r, replacement)] for a pattern [r] with the global flag and
   a replacement text without a dollar sign, which is inserted as it is:
   every match, from left to right, each search starting where the
   previous match ended (one position further after an empty match). *)
Fixpoint replace_from (r : regex) (replacement : chars) (fuel : nat)
    (input suffix : chars) : chars :=
  match fuel with
  | 0 => suffix
  | S fuel' =>
      match search r input suffix with
      | None => suffix
      | Some (skipped, y) =>
          skipped ++ replacement ++
          (if length (rest y) + length skipped <? length suffix
           then replace_from r replacement fuel' input (rest y)
           else match rest y with
                | [] => []
                | a :: tl => a :: replace_from r replacement fuel' input tl
                end)
      end
  end.

Definition replace_all (r : regex) (replacement s : string) : string :=
  let input := list_ascii_of_string s in
  string_of_list_ascii
    (replace_from r (list_ascii_of_string replacement)
       (S (length input)) input input).

(** *** The constructor: from pattern text to a [regex]

    The pattern grammar without flags, with the leniencies of web
    browsers: a lone closing bracket or brace is an ordinary character.
    Outside the modelled fragment ([Unmodelled]): braces quantifiers,
    look-around, named groups, back-references, [\b], [\B] and the
    escapes that start with a letter or digit other than those below. *)

Definition presult (A : Type) := completion (A * chars * nat).

Definition is_alnum (c : ascii) : bool :=
  in_range "a" "z" c || in_range "A" "Z" c || is_digit c.

Definition control_escape (c : ascii) : option ascii :=
  (if c =? "t" then Some "009" else
   if c =? "n" then Some "010" else
   if c =? "v" then Some "011" else
   if c =? "f" then Some "012" else
   if c =? "r" then Some "013" else None)%char.

Definition class_escape (c : ascii) : option class_item :=
  (if c =? "d" then Some (ClassDigit false) else
   if c =? "D" then Some (ClassDigit true) else
   if c =? "w" then Some (ClassWord false) else
   if c =? "W" then Some (ClassWord true) else
   if c =? "s" then Some (ClassSpace false) else
   if c =? "S" then Some (ClassSpace true) else None)%char.

(* What follows a backslash outside a character class. *)
Definition parse_atom_escape (s : chars) : completion (regex * chars) :=
  match s with
  | [] => Throw SyntaxError
  | c :: tl =>
      match class_escape c, control_escape c with
      | Some i, _ => Normal (RClass false [i], tl)
      | None, Some a => Normal (RChar a, tl)
      | None, None =>
          if is_alnum c then Unmodelled else Normal (RChar c, tl)
      end
  end.

(* One atom of a character class: a single character or a class escape. *)
Definition parse_class_atom (s : chars) : completion (class_item * chars) :=
  match s with
  | [] => Throw SyntaxError
  | "\"%char :: [] => Throw SyntaxError
  | "\"%char :: c :: tl =>
      match class_escape c, control_escape c with
      | Some i, _ => Normal (i, tl)
      | None, Some a => Normal (ClassChar a, tl)
      | None, None =>
          if (c =? "b")%char then Normal (ClassChar "008", tl)
          else if is_alnum c then Unmodelled
          else Normal (ClassChar c, tl)
      end
  | c :: tl => Normal (ClassChar c, tl)
  end.

Definition class_range (a b : class_item) : completion (list class_item) :=
  match a, b with
  | ClassChar lo, ClassChar hi =>
      if code lo <=? code hi then Normal [ClassRange lo hi]
      else Throw SyntaxError
  | _, _ => Normal [a; ClassChar "-"; b]
  end.

(* The items of a class up to and including its closing bracket. *)
Fixpoint parse_class (fuel : nat) (s : chars)
  : completion (list class_item * chars) :=
  match fuel with
  | 0 => Unmodelled
  | S fuel' =>
      match s with
      | [] => Throw SyntaxError
      | "]"%char :: tl => Normal ([], tl)
      | _ =>
          '(a, s1) <- parse_class_atom s ;;
          let single :=
            '(items, s3) <- parse_class fuel' s1 ;;
            Normal (a :: items, s3) in
          match s1 with
          | "-"%char :: s2 =>
              match s2 with
              | [] => single
              | "]"%char :: _ => single
              | _ :: _ =>
                  '(b, s3) <- parse_class_atom s2 ;;
                  range <- class_range a b ;;
                  '(items, s4) <- parse_class fuel' s3 ;;
                  Normal (range ++ items, s4)
              end
          | _ => single
          end
      end
  end.

(* The optional quantifier after an atom. *)
Definition parse_quantifier (atom : regex) (s : chars)
  : completion (regex * chars) :=
  let lazy (min : nat) (max : option nat) (tl : chars) :=
    match tl with
    | "?"%char :: tl' => Normal (RQuant min max false atom, tl')
    | _ => Normal (RQuant min max true atom, tl)
    end in
  match s with
  | "*"%char :: tl => lazy 0 None tl
  | "+"%char :: tl => lazy 1 None tl
  | "?"%char :: tl => lazy 0 (Some 1) tl
  | "{"%char :: _ => Unmodelled
  | _ => Normal (atom, s)
  end.

(* [n] counts the capturing groups opened so far. *)
Fixpoint parse_disjunction (fuel : nat) (s : chars) (n : nat)
  : presult regex :=
  match fuel with
  | 0 => Unmodelled
  | S fuel' =>
      '(r1, s1, n1) <- parse_alternative fuel' s n ;;
      match s1 with
      | "|"%char :: s2 =>
          '(r2, s3, n2) <- parse_disjunction fuel' s2 n1 ;;
          Normal (RAlt r1 r2, s3, n2)
      | _ => Normal (r1, s1, n1)
      end
  end
with parse_alternative (fuel : nat) (s : chars) (n : nat)
  : presult regex :=
  match fuel with
  | 0 => Unmodelled
  | S fuel' =>
      match s with
      | [] => Normal (REmpty, s, n)
      | "|"%char :: _ => Normal (REmpty, s, n)
      | ")"%char :: _ => Normal (REmpty, s, n)
      | _ =>
          '(t, s1, n1) <- parse_term fuel' s n ;;
          '(r, s2, n2) <- parse_alternative fuel' s1 n1 ;;
          Normal (RSeq t r, s2, n2)
      end
  end
with parse_term (fuel : nat) (s : chars) (n : nat) : presult regex :=
  match fuel with
  | 0 => Unmodelled
  | S fuel' =>
      let quantified (atom : completion (regex * chars)) (n' : nat) :=
        '(a, s1) <- atom ;;
        '(q, s2) <- parse_quantifier a s1 ;;
        Normal (q, s2, n') in
      let close (inner : presult regex) (wrap : regex -> regex) :=
        '(r, s1, n1) <- inner ;;
        match s1 with
        | ")"%char :: s2 =>
            '(q, s3) <- parse_quantifier (wrap r) s2 ;;
            Normal (q, s3, n1)
        | _ => Throw SyntaxError
        end in
      match s with
      | [] => Throw SyntaxError
      | "^"%char :: tl => Normal (RBol, tl, n)
      | "$"%char :: tl => Normal (REol, tl, n)
      | "*"%char :: _ | "+"%char :: _ | "?"%char :: _ => Throw SyntaxError
      | "{"%char :: _ => Unmodelled
      | "("%char :: "?"%char :: ":"%char :: tl =>
          close (parse_disjunction fuel' tl n) (fun r => r)
      | "("%char :: "?"%char :: _ => Unmodelled
      | "("%char :: tl =>
          close (parse_disjunction fuel' tl (S n)) (RGroup (S n))
      | "["%char :: "^"%char :: tl =>
          quantified
            ('(items, s1) <- parse_class (S (length tl)) tl ;;
             Normal (RClass true items, s1)) n
      | "["%char :: tl =>
          quantified
            ('(items, s1) <- parse_class (S (length tl)) tl ;;
             Normal (RClass false items, s1)) n
      | "."%char :: tl => quantified (Normal (RDot, tl)) n
      | "\"%char :: tl => quantified (parse_atom_escape tl) n
      | c :: tl => quantified (Normal (RChar c, tl)) n
      end
  end.

(* [new RegExp(pattern)] *)
Definition RegExp_new (pattern : string) : completion regex :=
  let s := list_ascii_of_string pattern in
  '(r, s1, _) <- parse_disjunction (3 * length s + 3) s 0 ;;
  match s1 with
  | [] => Normal r
  | _ :: _ => Throw SyntaxError
  end.

(* [new RegExp(pattern).test(s)] *)
Definition RegExp_test (pattern s : string) : completion bool :=
  r <- RegExp_new pattern ;; Normal (test r s).

End RegExp.

Import RegExp.

(** ** The data model ([src/types.ts])

    An optional field is [None] when its key is absent.  A key that is
    present with the value [undefined], which the optional field types
    also admit, is not represented.  The structured data under [jsonLd] is
    opaque to the code; its numbers are integers here. *)

Inductive json : Type :=
| JNull
| JBool (b : bool)
| JNumber (n : Z)
| JString (s : string)
| JArray (items : list json)
| JObject (members : list (string * json)).

Record OpenGraphMeta : Type := {
  og_type : option string;
  og_image : option string;
  og_url : option string
}.

Record TwitterMeta : Type := {
  tw_card : option string;
  tw_site : option string;
  tw_creator : option string;
  tw_image : option string
}.

Record RouteMeta : Type := {
  title : option string;
  description : option string;
  openGraph : option OpenGraphMeta;
  twitter : option TwitterMeta;
  jsonLd : option (list (string * json))
}.

Definition Record_ (A : Type) := list (string * A).

Record ResolverContext : Type := {
  params : Record_ string;
  query : option (Record_ (string + list string))
}.

(* A promise, once settled. *)
Inductive settled (A : Type) : Type :=
| Fulfilled (a : A)
| Rejected (e : thrown).

Arguments Fulfilled {A} a.
Arguments Rejected {A} e.

(* What a call of a resolver does: it returns a record, returns a promise
   of one, or throws. *)
Inductive returned : Type :=
| ReturnsValue (m : RouteMeta)
| ReturnsPromise (p : settled RouteMeta)
| Raises (e : thrown).

(* [await] inside an async function: [Throw] leaves the function. *)
Definition await (r : returned) : completion RouteMeta :=
  match r with
  | ReturnsValue m => Normal m
  | ReturnsPromise (Fulfilled m) => Normal m
  | ReturnsPromise (Rejected e) => Throw e
  | Raises e => Throw e
  end.

Section Resolver.

(** Resolver functions are host code: they may read and change the world
    around them (the network, a clock, a cache), of which nothing is
    assumed. *)
Variable World : Type.

Definition MetadataResolver : Type :=
  ResolverContext -> World -> returned * World.

(* [RouteMeta | MetadataResolver], told apart by [typeof]. *)
Inductive RouteEntry : Type :=
| Static (m : RouteMeta)
| Dynamic (f : MetadataResolver).

(* [routes] holds the entries of the object in the order in which
   [Object.keys] enumerates its keys: the order of insertion, for keys that
   are not array indices (no key that starts with a slash is one). *)
Record MetadataConfig : Type := {
  defaults : option RouteMeta;
  routes : Record_ RouteEntry
}.

(** ** The resolver ([src/utils/resolveMetadata.ts]) *)

Definition Object_keys {A : Type} (o : Record_ A) : list string :=
  map fst o.

(* [o[k]] for an own key; [None] is [undefined]. *)
Fixpoint get_property {A : Type} (o : Record_ A) (k : string) : option A :=
  match o with
  | [] => None
  | (k', v) :: o' => if (k' =? k)%string then Some v else get_property o' k
  end.

(* The pattern literal [/:[^/]+/g]. *)
Definition colon_token : regex :=
  RSeq (RChar ":")
    (RSeq (RQuant 1 None true (RClass true [ClassChar "/"])) REmpty).

(* ["^" + route.replace(/:[^/]+/g, "([^/]+)") + "$"] *)
Definition route_pattern (route : string) : string :=
  ("^" ++ replace_all colon_token "([^/]+)" route ++ "$")%string.

Fixpoint matchRoute_keys (path : string) (keys : list string)
  : completion (option string) :=
  match keys with
  | [] => Normal None
  | route :: keys' =>
      let pattern := route_pattern route in
      matched <- RegExp_test pattern path ;;
      if matched then Normal (Some route) else matchRoute_keys path keys'
  end.

Definition matchRoute (path : string) (config : MetadataConfig)
  : completion (option string) :=
  matchRoute_keys path (Object_keys (routes config)).

Definition empty_meta : RouteMeta :=
  {| title := None; description := None; openGraph := None;
     twitter := None; jsonLd := None |}.

Definition or_else {A : Type} (a b : option A) : option A :=
  match a with Some _ => a | None => b end.

(* Copying the own keys of [source] onto [target]. *)
Definition assign (target source : RouteMeta) : RouteMeta :=
  {| title := or_else (title source) (title target);
     description := or_else (description source) (description target);
     openGraph := or_else (openGraph source) (openGraph target);
     twitter := or_else (twitter source) (twitter target);
     jsonLd := or_else (jsonLd source) (jsonLd target) |}.

(* [{ ...a, ...b }]: spreading [undefined] adds nothing. *)
Definition spread (a b : option RouteMeta) : RouteMeta :=
  let copy (target : RouteMeta) (source : option RouteMeta) :=
    match source with Some m => assign target m | None => target end in
  copy (copy empty_meta a) b.

(* The condition [!routeKey] for a [string | null]: [null] is falsy, and
   so is the empty string. *)
Definition falsy (routeKey : option string) : bool :=
  match routeKey with
  | None => true
  | Some k => (k =? "")%string
  end.

(* The promise an [async] function returns: [Normal m] is a promise
   fulfilled with [m], [Throw e] one rejected with [e]. *)
Definition resolveMetadata (config : MetadataConfig) (path : string)
    (params_arg : option (Record_ string)) (w : World)
  : completion RouteMeta * World :=
  let params := match params_arg with Some p => p | None => [] end in
  match matchRoute path config with
  | Throw e => (Throw e, w)
  | Unmodelled => (Unmodelled, w)
  | Normal routeKey =>
      if falsy routeKey then
        (Normal (match defaults config with
                 | Some d => d
                 | None => empty_meta
                 end), w)
      else
        let routeMeta :=
          match routeKey with
          | Some k => get_property (routes config) k
          | None => None
          end in
        match routeMeta with
        | Some (Dynamic f) =>
            let '(r, w') := f {| params := params; query := None |} w in
            (m <- await r ;; Normal (spread (defaults config) (Some m)), w')
        | Some (Static m) => (Normal (spread (defaults config) (Some m)), w)
        | None => (Normal (spread (defaults config) None), w)
        end
  end.

End Resolver.

Arguments Static {World} m.
Arguments Dynamic {World} f.
Arguments Build_MetadataConfig {World} defaults routes.
Arguments defaults {World} m.
Arguments routes {World} m.
Arguments matchRoute {World} path config.
Arguments resolveMetadata {World} config path params_arg w.

(** ** The hydrator ([src/client/MetadataHydrator.ts])

    The part of the document the component touches: the title, and the
    elements in tree order, those inside [head] and then those after it.
    An attached element is referred to by its place, so that a change made
    through one reference is seen through every other. *)

Module Hydrator.

Record element : Type := {
  tagName : string;
  attributes : list (string * string)
}.

Record document : Type := {
  doc_title : string;
  head : list element;
  body : list element
}.

Inductive node : Type :=
| InHead (i : nat)
| InBody (i : nat).

(* The selector [tag[attr="value"]]. *)
Record selector : Type := {
  sel_tag : string;
  sel_attr : string;
  sel_value : string
}.

Fixpoint getAttribute (attrs : list (string * string)) (name : string)
  : option string :=
  match attrs with
  | [] => None
  | (n, v) :: attrs' =>
      if (n =? name)%string then Some v else getAttribute attrs' name
  end.

Fixpoint set_attribute (attrs : list (string * string)) (name value : string)
  : list (string * string) :=
  match attrs with
  | [] => [(name, value)]
  | (n, v) :: attrs' =>
      if (n =? name)%string then (n, value) :: attrs'
      else (n, v) :: set_attribute attrs' name value
  end.

(* [e.setAttribute(name, value)] on an element that is not attached. *)
Definition setAttribute (e : element) (name value : string) : element :=
  {| tagName := tagName e;
     attributes := set_attribute (attributes e) name value |}.

Definition matches (sel : selector) (e : element) : bool :=
  (tagName e =? sel_tag sel)%string &&
  match getAttribute (attributes e) (sel_attr sel) with
  | Some v => (v =? sel_value sel)%string
  | None => false
  end.

Fixpoint find_index {A : Type} (p : A -> bool) (l : list A) : option nat :=
  match l with
  | [] => None
  | a :: l' =>
      if p a then Some 0 else option_map S (find_index p l')
  end.

Fixpoint update_nth {A : Type} (i : nat) (f : A -> A) (l : list A)
  : list A :=
  match l, i with
  | [], _ => []
  | a :: l', 0 => f a :: l'
  | a :: l', S i' => a :: update_nth i' f l'
  end.

(* [document.querySelector(sel)]: the first match in tree order. *)
Definition querySelector (doc : document) (sel : selector) : option node :=
  match find_index (matches sel) (head doc) with
  | Some i => Some (InHead i)
  | None => option_map InBody (find_index (matches sel) (body doc))
  end.

Definition element_at (doc : document) (n : node) : option element :=
  match n with
  | InHead i => nth_error (head doc) i
  | InBody i => nth_error (body doc) i
  end.

(* [n.setAttribute(name, value)] on an attached element. *)
Definition setAttribute_at (n : node) (name value : string)
    (doc : document) : document :=
  match n with
  | InHead i =>
      {| doc_title := doc_title doc;
         head := update_nth i (fun e => setAttribute e name value) (head doc);
         body := body doc |}
  | InBody i =>
      {| doc_title := doc_title doc;
         head := head doc;
         body := update_nth i (fun e => setAttribute e name value) (body doc) |}
  end.

Definition createElement (tag : string) : element :=
  {| tagName := tag; attributes := [] |}.

(* [document.head.appendChild(e)]: [e] becomes the last child of head. *)
Definition appendChild_head (e : element) (doc : document)
  : node * document :=
  (InHead (length (head doc)),
   {| doc_title := doc_title doc;
      head := head doc ++ [e];
      body := body doc |}).

Definition set_title (t : string) (doc : document) : document :=
  {| doc_title := t; head := head doc; body := body doc |}.

Definition meta_description : selector :=
  {| sel_tag := "meta"; sel_attr := "name"; sel_value := "description" |}.

Definition meta_og_image : selector :=
  {| sel_tag := "meta"; sel_attr := "property"; sel_value := "og:image" |}.

(* The condition of [if (v)] for an optional string: present and not
   empty. *)
Definition truthy (v : option string) : option string :=
  match v with
  | Some s => if (s =? "")%string then None else Some s
  | None => None
  end.

(* [meta.openGraph?.image] *)
Definition openGraph_image (meta : RouteMeta) : option string :=
  match openGraph meta with
  | Some og => og_image og
  | None => None
  end.

(* The body of [updateMeta] once the response has been parsed (lines 14
   to 34). *)
Definition updateMeta (meta : RouteMeta) (doc : document) : document :=
  let doc :=
    match truthy (title meta) with
    | Some t => set_title t doc
    | None => doc
    end in
  let doc :=
    match truthy (description meta) with
    | Some d =>
        let '(desc, doc) :=
          match querySelector doc meta_description with
          | Some desc => (desc, doc)
          | None =>
              let desc := createElement "meta" in
              let desc := setAttribute desc "name" "description" in
              appendChild_head desc doc
          end in
        setAttribute_at desc "content" d doc
    | None => doc
    end in
  match truthy (openGraph_image meta) with
  | Some img =>
      let '(ogImg, doc) :=
        match querySelector doc meta_og_image with
        | Some ogImg => (ogImg, doc)
        | None =>
            let ogImg := createElement "meta" in
            let ogImg := setAttribute ogImg "property" "og:image" in
            appendChild_head ogImg doc
        end in
      setAttribute_at ogImg "content" img doc
  | None => doc
  end.

(* One run of the effect of the component, for one value of the path
   name: the response of the endpoint is fetched, parsed and applied.  A
   request or a parse that fails rejects the promise before anything is
   applied, and the document stays as it is. *)
Definition MetadataHydrator (fetch_json : string -> completion RouteMeta)
    (pathname : string) (doc : document) : document :=
  match fetch_json ("/api/metadata?path=" ++ pathname)%string with
  | Normal meta => updateMeta meta doc
  | _ => doc
  end.

End Hydrator.

Import Hydrator.

(** ** Definitions that follow the specification's words *)

Definition non_slash (c : ascii) : bool := negb (c =? "/")%char.

Fixpoint skip_while (p : ascii -> bool) (s : chars) : chars :=
  match s with
  | [] => []
  | a :: tl => if p a then skip_while p tl else s
  end.

Definition starts_with (p : ascii -> bool) (s : chars) : bool :=
  match s with
  | a :: _ => p a
  | [] => false
  end.

Definition wildcard_group : chars := list_ascii_of_string "([^/]+)".

(* A token is a colon followed by at least one character other than a
   slash, with all the characters up to the next slash or the end; each
   token becomes a wildcard group and everything else is kept. *)
Fixpoint wildcard_tokens (in_token : bool) (s : chars) : chars :=
  match s with
  | [] => []
  | a :: tl =>
      if in_token then
        if non_slash a then wildcard_tokens true tl
        else a :: wildcard_tokens false tl
      else if (a =? ":")%char && starts_with non_slash tl then
        wildcard_group ++ wildcard_tokens true tl
      else a :: wildcard_tokens false tl
  end.

Definition substitute_tokens (route : string) : string :=
  string_of_list_ascii (wildcard_tokens false (list_ascii_of_string route)).

Definition slash_free (s : string) : bool :=
  forallb non_slash (list_ascii_of_string s).

Definition colon_free (s : string) : bool :=
  forallb (fun c => negb (c =? ":")%char) (list_ascii_of_string s).

(* The part of a path after its last slash. *)
Fixpoint last_segment_from (acc s : chars) : chars :=
  match s with
  | [] => acc
  | a :: tl =>
      if (a =? "/")%char then last_segment_from [] tl
      else last_segment_from (acc ++ [a]) tl
  end.

Definition last_segment (path : string) : string :=
  string_of_list_ascii (last_segment_from [] (list_ascii_of_string path)).

Section ResolverWords.

Variable World : Type.

(* "Invoke it with [{ params }] and await its result; otherwise use the
   static value directly", then the shallow merge onto the defaults. *)
Definition resolved_entry (config : MetadataConfig World)
    (entry : RouteEntry World) (params_arg : option (Record_ string))
    (w : World) : completion RouteMeta * World :=
  match entry with
  | Static m => (Normal (spread (defaults config) (Some m)), w)
  | Dynamic f =>
      let ctx := {| params := match params_arg with Some p => p | None => [] end;
                    query := None |} in
      (m <- await (fst (f ctx w)) ;; Normal (spread (defaults config) (Some m)),
       snd (f ctx w))
  end.

(* A pure resolver: what it returns does not depend on the world. *)
Definition pure_resolver (f : MetadataResolver World) : Prop :=
  forall ctx w1 w2, fst (f ctx w1) = fst (f ctx w2).

Definition pure_config (config : MetadataConfig World) : Prop :=
  forall route f, In (route, Dynamic f) (routes config) -> pure_resolver f.

End ResolverWords.

Arguments resolved_entry {World} config entry params_arg w.
Arguments pure_resolver {World} f.
Arguments pure_config {World} config.

(** *** Route patterns, as the data model describes them

    A route pattern is a sequence of pieces: literal characters, and one
    wildcard for each colon token. *)

Inductive piece : Type :=
| Lit (a : ascii)
| Wild.

Fixpoint pieces_of (in_token : bool) (s : chars) : list piece :=
  match s with
  | [] => []
  | a :: tl =>
      if in_token then
        if non_slash a then pieces_of true tl
        else Lit a :: pieces_of false tl
      else if (a =? ":")%char && starts_with non_slash tl then
        Wild :: pieces_of true tl
      else Lit a :: pieces_of false tl
  end.

(* A literal character stands for itself; a wildcard stands for one path
   segment, or the rest of one: one or more characters other than a
   slash, as many as there are. *)
Fixpoint pieces_match (ps : list piece) (s : chars) : bool :=
  match ps with
  | [] => match s with [] => true | _ :: _ => false end
  | Lit a :: ps' =>
      match s with
      | b :: s' => (b =? a)%char && pieces_match ps' s'
      | [] => false
      end
  | Wild :: ps' =>
      starts_with non_slash s && pieces_match ps' (skip_while non_slash s)
  end.

Definition route_matches (route path : string) : bool :=
  pieces_match (pieces_of false (list_ascii_of_string route))
    (list_ascii_of_string path).

(* The characters that have a meaning of their own in a pattern. *)
Definition is_syntax_char (a : ascii) : bool :=
  existsb (Ascii.eqb a) (list_ascii_of_string "^$\.*+?()[]{}|").

Definition plain_piece (p : piece) : bool :=
  match p with
  | Lit a => negb (is_syntax_char a)
  | Wild => true
  end.

(* A plain route: outside its tokens, every character is an ordinary one. *)
Definition plain_route (route : string) : bool :=
  forallb plain_piece (pieces_of false (list_ascii_of_string route)).

(** *** The hydrator, in the specification's words *)

Definition elements (doc : document) : list element :=
  head doc ++ body doc.

(* The element a selector designates, and its content. *)
Definition select (doc : document) (sel : selector) : option element :=
  match querySelector doc sel with
  | Some n => element_at doc n
  | None => None
  end.

Definition content_of (doc : document) (sel : selector) : option string :=
  match select doc sel with
  | Some e => getAttribute (attributes e) "content"
  | None => None
  end.

Definition new_meta (sel : selector) (content : string) : element :=
  {| tagName := "meta";
     attributes := [(sel_attr sel, sel_value sel); ("content", content)] |}.

(* "Creates the element if absent, and sets its content." *)
Inductive upserted (sel : selector) (content : string)
    (doc doc' : document) : Prop :=
| upsert_existing (n : node) (e : element) :
    querySelector doc sel = Some n ->
    element_at doc n = Some e ->
    doc' = setAttribute_at n "content" content doc ->
    upserted sel content doc doc'
| upsert_created :
    querySelector doc sel = None ->
    doc' = {| doc_title := doc_title doc;
              head := head doc ++ [new_meta sel content];
              body := body doc |} ->
    upserted sel content doc doc'.

(* An element carrying both the description name and the og:image
   property. *)
Definition shared (e : element) : bool :=
  matches meta_description e && matches meta_og_image e.

Definition no_shared_element (doc : document) : bool :=
  forallb (fun e => negb (shared e)) (elements doc).

(* [e'] is [e], possibly with a new, non-empty content. *)
Definition kept (e e' : element) : Prop :=
  tagName e' = tagName e
  /\ forall a : string,
       getAttribute (attributes e') a = getAttribute (attributes e) a
       \/ (a = "content"
           /\ exists v, v <> "" /\ getAttribute (attributes e') a = Some v).

(* Every element of the first list is kept in the second, in order. *)
Inductive embeds : list element -> list element -> Prop :=
| embeds_nil : embeds [] []
| embeds_kept (e e' : element) (l l' : list element) :
    kept e e' -> embeds l l' -> embeds (e :: l) (e' :: l')
| embeds_added (e' : element) (l l' : list element) :
    embeds l l' -> embeds l (e' :: l').

(** *** Definitions used in the proofs *)

(* The pattern that reads the characters of [lit] and then [r]. *)
Fixpoint literal (lit : chars) (r : regex) : regex :=
  match lit with
  | [] => r
  | a :: tl => RSeq (RChar a) (literal tl r)
  end.

Fixpoint strip_prefix (lit s : chars) : option chars :=
  match lit, s with
  | [], _ => Some s
  | a :: lit', b :: s' => if (b =? a)%char then strip_prefix lit' s' else None
  | _ :: _, [] => None
  end.

(* The group the resolver writes for a token, as the constructor reads it. *)
Definition wildcard (n : nat) : regex :=
  RGroup n (RSeq (RQuant 1 None true (RClass true [ClassChar "/"])) REmpty).

Fixpoint update_first {A : Type} (p : A -> bool) (f : A -> A) (l : list A)
  : list A :=
  match l with
  | [] => []
  | a :: l' => if p a then f a :: l' else a :: update_first p f l'
  end.

(* One of the two blocks of [updateMeta] that create or update a meta
   element, for the selector [sel] and a truthy [content]. *)
Definition upsert (sel : selector) (content : string) (doc : document)
  : document :=
  let '(n, doc) :=
    match querySelector doc sel with
    | Some n => (n, doc)
    | None =>
        appendChild_head
          (setAttribute (createElement "meta") (sel_attr sel) (sel_value sel))
          doc
    end in
  setAttribute_at n "content" content doc.

Definition apply_truthy (v : option string)
    (f : string -> document -> document) (doc : document) : document :=
  match truthy v with
  | Some s => f s doc
  | None => doc
  end.

(* The text of a piece in the pattern, and what the constructor makes of
   the pieces followed by the closing [$]. *)
Definition render (p : piece) : chars :=
  match p with
  | Lit a => [a]
  | Wild => wildcard_group
  end.

Definition pattern_tail (ps : list piece) : chars :=
  flat_map render ps ++ ["$"%char].

Fixpoint compile (ps : list piece) (n : nat) : regex :=
  match ps with
  | [] => RSeq REol REmpty
  | Lit a :: ps' => RSeq (RChar a) (compile ps' n)
  | Wild :: ps' => RSeq (wildcard (S n)) (compile ps' (S n))
  end.

Fixpoint count_wild (ps : list piece) : nat :=
  match ps with
  | [] => 0
  | Lit _ :: ps' => count_wild ps'
  | Wild :: ps' => S (count_wild ps')
  end.

(* What follows is not read as a quantifier. *)
Definition head_ok (s : chars) : bool :=
  match s with
  | b :: _ => negb (existsb (Ascii.eqb b) (list_ascii_of_string "*+?{"))
  | [] => true
  end.

(* After a wildcard comes a slash or nothing. *)
Fixpoint well_formed (ps : list piece) : bool :=
  match ps with
  | [] => true
  | Lit _ :: ps' => well_formed ps'
  | Wild :: ps' =>
      match ps' with
      | [] => true
      | Lit a :: _ => (a =? "/")%char && well_formed ps'
      | Wild :: _ => false
      end
  end.

Definition is_some {A : Type} (o : option A) : bool :=
  match o with
  | Some _ => true
  | None => false
  end.

(* Giving back characters of a run cannot help [c]: when [c] fails after
   the longest run of characters that pass [p], it fails after any part of
   it as well. *)
Definition run_decides (p : ascii -> bool) (c : cont) : Prop :=
  forall (s : chars) (cs : captures),
    starts_with p s = true ->
    c (MState (skip_while p s) cs) = None -> c (MState s cs) = None.

(** *** Example configurations, resolvers and documents *)

Definition titled_meta (t : string) : RouteMeta :=
  {| title := Some t; description := None; openGraph := None;
     twitter := None; jsonLd := None |}.



Definition site_about : MetadataConfig unit :=
  {| defaults := Some (titled_meta "Site");
     routes := [("/about", Static (titled_meta "About"))] |}.

Definition empty_key_config : MetadataConfig unit :=
  {| defaults := Some (titled_meta "Site");
     routes := [("", Static (titled_meta "Empty"))] |}.

(* A resolver that fails the way [r] says, after one step of the world. *)
Definition failing_resolver (r : returned) : MetadataResolver nat :=
  fun _ w => (r, S w).

Definition failing_config (r : returned) : MetadataConfig nat :=
  {| defaults := Some (titled_meta "Site");
     routes := [("/user/:name", Dynamic (failing_resolver r))] |}.

(* A pure resolver: the title is the [slug] parameter it is given. *)
Definition echo_slug : MetadataResolver nat :=
  fun ctx w =>
    (ReturnsPromise
       (Fulfilled
          {| title := get_property (params ctx) "slug"; description := None;
             openGraph := None; twitter := None; jsonLd := None |}),
     S w).

Definition blog_config : MetadataConfig nat :=
  {| defaults := Some (titled_meta "Site");
     routes := [("/about", Static (titled_meta "About"));
                ("/blog/:slug", Dynamic echo_slug)] |}.

Definition old_page : document :=
  {| doc_title := "Old"; head := []; body := [] |}.

Definition full_meta : RouteMeta :=
  {| title := Some "Post";
     description := Some "About the post";
     openGraph := Some {| og_type := Some "article";
                          og_image := Some "/post.png";
                          og_url := None |};
     twitter := Some {| tw_card := Some "summary"; tw_site := None;
                        tw_creator := None; tw_image := Some "/tw.png" |};
     jsonLd := Some [("@type", JString "BlogPosting")] |}.

Definition applied_meta : RouteMeta :=
  {| title := Some "Post";
     description := Some "About the post";
     openGraph := Some {| og_type := None; og_image := Some "/post.png";
                          og_url := None |};
     twitter := None;
     jsonLd := None |}.

(* A page whose one meta element carries both attributes. *)
Definition shared_page : document :=
  {| doc_title := "Old";
     head := [{| tagName := "meta";
                 attributes := [("name", "description");
                                ("property", "og:image");
                                ("content", "About the site")] |}];
     body := [] |}.

Definition image_only : RouteMeta :=
  {| title := None; description := None;
     openGraph := Some {| og_type := None; og_image := Some "/post.png";
                          og_url := None |};
     twitter := None; jsonLd := None |}.

(* The endpoint of an application with two routes. *)
Definition two_routes (url : string) : completion RouteMeta :=
  if (url =? "/api/metadata?path=/post")%string then Normal full_meta
  else if (url =? "/api/metadata?path=/next")%string
       then Normal (titled_meta "Next")
       else Throw (UserError "404").

(** ** The integration the README gives ([README.md], Basic Usage)

    The helper [getCurrentPath] and the [generateMetadata] hook of the root
    layout, the caller of resolveMetadata on the server. *)

(* A route parameter of the host framework: the text of one segment, or
   the texts of the segments of a catch-all. *)
Definition param_value : Type := (string + list string)%type.

(* A value inside a template literal: an array is joined with commas, a
   missing property reads [undefined]. *)
Definition template_string (v : option param_value) : string :=
  match v with
  | Some (inl s) => s
  | Some (inr l) => String.concat "," l
  | None => "undefined"
  end.

(* [getCurrentPath(params, searchParams)]; [searchParams] is not read. *)
Definition getCurrentPath (params : option (Record_ param_value)) : string :=
  match params with
  | Some ps =>
      if negb (length (Object_keys ps) =? 0) then
        let path :=
          fold_left
            (fun path key =>
               (path ++ "/" ++ template_string (get_property ps key))%string)
            (Object_keys ps) "" in
        if (path =? "")%string then "/" else path
      else "/"
  | None => "/"
  end.

(* [generateMetadata({ params, searchParams })] of [app/layout.tsx]:
   resolveMetadata is called with two arguments. *)
Definition generateMetadata {World : Type} (config : MetadataConfig World)
    (params : option (Record_ param_value)) (w : World)
  : completion RouteMeta * World :=
  resolveMetadata config (getCurrentPath params) None w.

(** ** Words for the further properties *)

Fixpoint count_char (a : ascii) (s : chars) : nat :=
  match s with
  | [] => 0
  | b :: tl => (if (b =? a)%char then 1 else 0) + count_char a tl
  end.

(* The number of slashes of a route key or a path. *)
Definition count_slashes (s : string) : nat :=
  count_char "/" (list_ascii_of_string s).

(* The literal pieces that are the character [a]. *)
Fixpoint count_lit (a : ascii) (ps : list piece) : nat :=
  match ps with
  | [] => 0
  | Lit b :: ps' => (if (b =? a)%char then 1 else 0) + count_lit a ps'
  | Wild :: ps' => count_lit a ps'
  end.

(* The number of tokens of a route key. *)
Definition count_tokens (route : string) : nat :=
  count_wild (pieces_of false (list_ascii_of_string route)).

(* The path obtained from the pieces of a route by writing a value in the
   place of each wildcard. *)
Fixpoint fill (ps : list piece) (values : list string) : chars :=
  match ps with
  | [] => []
  | Lit a :: ps' => a :: fill ps' values
  | Wild :: ps' =>
      match values with
      | v :: values' => list_ascii_of_string v ++ fill ps' values'
      | [] => fill ps' []
      end
  end.

Definition fill_tokens (route : string) (values : list string) : string :=
  string_of_list_ascii (fill (pieces_of false (list_ascii_of_string route)) values).

(* A value a token can stand for: not empty, without a slash. *)
Definition segment_value (v : string) : bool :=
  negb (v =? "")%string && slash_free v.

(* An ordinary character: it has no meaning of its own in a pattern and
   does not start a token. *)
Definition ordinary (a : ascii) : bool :=
  negb (is_syntax_char a) && negb (a =? ":")%char.

(* A key without tokens and without pattern syntax. *)
Definition literal_key (route : string) : bool :=
  forallb ordinary (list_ascii_of_string route).

(* A key made of ordinary characters and dots, against a path: a dot
   stands for any one character that does not end a line. *)
Fixpoint dot_match (route path : chars) : bool :=
  match route, path with
  | [], [] => true
  | a :: route', b :: path' =>
      (if (a =? ".")%char then negb (is_line_terminator b) else (b =? a)%char)
      && dot_match route' path'
  | _, _ => false
  end.

Definition dotted (route : string) : bool :=
  forallb (fun a => ordinary a || (a =? ".")%char) (list_ascii_of_string route).

(* What the constructor makes of such a key followed by the closing [$]. *)
Fixpoint dot_compile (route : chars) : regex :=
  match route with
  | [] => RSeq REol REmpty
  | a :: route' =>
      RSeq (if (a =? ".")%char then RDot else RChar a) (dot_compile route')
  end.

(* The last of the values of a field that are present and not empty, in a
   list of responses. *)
Fixpoint latest (field : RouteMeta -> option string)
    (responses : list RouteMeta) : option string :=
  match responses with
  | [] => None
  | m :: responses' => or_else (latest field responses') (truthy (field m))
  end.

(* The responses applied one after the other, in the order in which they
   arrive. *)
Definition apply_responses (responses : list RouteMeta) (doc : document)
  : document :=
  fold_left (fun d m => updateMeta m d) responses doc.

(* The runs of the effect of the component for the path names of a list,
   in the order in which their responses arrive. *)
Definition effect_runs (fetch_json : string -> completion RouteMeta)
    (pathnames : list string) (doc : document) : document :=
  fold_left (fun d p => MetadataHydrator fetch_json p d) pathnames doc.

(* The responses that arrived, among those of a list of path names. *)
Fixpoint arrived (fetch_json : string -> completion RouteMeta)
    (pathnames : list string) : list RouteMeta :=
  match pathnames with
  | [] => []
  | p :: pathnames' =>
      match fetch_json ("/api/metadata?path=" ++ p)%string with
      | Normal meta => meta :: arrived fetch_json pathnames'
      | _ => arrived fetch_json pathnames'
      end
  end.

(* The number of elements a response makes the hydrator create. *)
Definition created (meta : RouteMeta) (doc : document) : nat :=
  (match truthy (description meta), select doc meta_description with
   | Some _, None => 1
   | _, _ => 0
   end)
  + (match truthy (openGraph_image meta), select doc meta_og_image with
     | Some _, None => 1
     | _, _ => 0
     end).

(* [e'] is [e] but for its content. *)
Definition same_but_content (e e' : element) : Prop :=
  tagName e' = tagName e
  /\ forall a : string,
       a <> "content" ->
       getAttribute (attributes e') a = getAttribute (attributes e) a.

(* What a patch of the document keeps: the elements after head are as
   many, every element stays at its place, the same but for its content,
   and the same altogether outside the places in [changed]. *)
Definition patched (changed : node -> Prop) (doc doc' : document) : Prop :=
  length (body doc') = length (body doc)
  /\ forall (n : node) (e : element),
       element_at doc n = Some e ->
       exists e' : element,
         element_at doc' n = Some e'
         /\ same_but_content e e'
         /\ (~ changed n -> e' = e).

(* Parameters that are each the text of one segment. *)
Definition segment_params (ps : Record_ param_value) : bool :=
  forallb (fun kv => match snd kv with
                     | inl v => segment_value v
                     | inr _ => false
                     end) ps.

(** *** More example configurations *)

(* A catch-all written as a star. *)
Definition star_config : MetadataConfig unit :=
  {| defaults := Some (titled_meta "Site");
     routes := [("/about", Static (titled_meta "About"));
                ("*", Static (titled_meta "Fallback"))] |}.


(* The wildcard route ahead of the literal one. *)
Definition shadowed_config : MetadataConfig unit :=
  {| defaults := None;
     routes := [("/blog/:slug", Static (titled_meta "Post"));
                ("/blog/featured", Static (titled_meta "Featured"))] |}.

(* The configuration of the README, with resolvers that read their
   parameter. *)
Definition readme_config : MetadataConfig nat :=
  {| defaults := Some (titled_meta "My Awesome Website");
     routes := [("/", Static (titled_meta "Home"));
                ("/about", Static (titled_meta "About Us"));
                ("/blog/:slug", Dynamic echo_slug)] |}.

(* A page with two description elements. *)
Definition twice_described : document :=
  {| doc_title := "Old";
     head := [{| tagName := "meta";
                 attributes := [("name", "description"); ("content", "first")] |};
              {| tagName := "meta";
                 attributes := [("name", "description"); ("content", "second")] |}];
     body := [] |}.

(** * Facts about the regular expression engine *)

Module RegExpFacts.

Lemma list_ascii_of_string_app (s t : string) :
  list_ascii_of_string (s ++ t)%string
  = list_ascii_of_string s ++ list_ascii_of_string t.
Proof.
  induction s as [|a s IH]; simpl; [reflexivity | now rewrite IH].
Qed.

Lemma string_of_list_ascii_app (s t : chars) :
  string_of_list_ascii (s ++ t)
  = (string_of_list_ascii s ++ string_of_list_ascii t)%string.
Proof.
  induction s as [|a s IH]; simpl; [reflexivity | now rewrite IH].
Qed.

Lemma skip_while_length (p : ascii -> bool) (s : chars) :
  length (skip_while p s) <= length s.
Proof.
  induction s as [|a s IH]; simpl; [lia|]. destruct (p a); simpl; lia.
Qed.

(** *** Quantifiers: the fuel is never used up

    A continuation is only ever applied, so two continuations that agree
    everywhere give the same result; and the steps of [repeat_free] beyond
    the length of what is left to read are never taken. *)

Lemma repeat_free_ext (m : mstate -> cont -> option mstate)
    (grp : list nat) :
  (forall x c1 c2, (forall y, c1 y = c2 y) -> m x c1 = m x c2) ->
  forall fuel max greedy x c1 c2,
    (forall y, c1 y = c2 y) ->
    repeat_free m grp fuel max greedy x c1
    = repeat_free m grp fuel max greedy x c2.
Proof.
  intros Hm fuel. induction fuel as [|fuel IH]; intros max greedy x c1 c2 Hc;
    [reflexivity|].
  cbn [repeat_free]. rewrite (Hc x).
  destruct (max_is_zero max); [reflexivity|].
  rewrite (Hm (clear_captures grp x) _
             (fun y => if length (rest y) <? length (rest x)
                       then repeat_free m grp fuel (max_pred max) greedy y c2
                       else None)).
  - reflexivity.
  - intros y. destruct (length (rest y) <? length (rest x)); [|reflexivity].
    now apply IH.
Qed.

Lemma repeat_matcher_ext (m : mstate -> cont -> option mstate)
    (grp : list nat) :
  (forall x c1 c2, (forall y, c1 y = c2 y) -> m x c1 = m x c2) ->
  forall min max greedy x c1 c2,
    (forall y, c1 y = c2 y) ->
    repeat_matcher m grp min max greedy x c1
    = repeat_matcher m grp min max greedy x c2.
Proof.
  intros Hm min. induction min as [|min IH]; intros max greedy x c1 c2 Hc.
  - now apply repeat_free_ext.
  - cbn [repeat_matcher]. rewrite (Hc x).
    destruct (max_is_zero max); [reflexivity|].
    apply Hm. intros y. now apply IH.
Qed.

Lemma matcher_ext (input : chars) (r : regex) :
  forall x c1 c2,
    (forall y, c1 y = c2 y) ->
    matcher input r x c1 = matcher input r x c2.
Proof.
  induction r as [| a | | neg items | | | r1 IH1 r2 IH2 | r1 IH1 r2 IH2
                 | n r IH | min max greedy r IH];
    intros x c1 c2 Hc; cbn [matcher];
    try (unfold one_char; destruct (rest x) as [|b tl]; [reflexivity|];
         now rewrite Hc).
  - apply Hc.
  - now rewrite Hc.
  - now rewrite Hc.
  - apply IH1. intros y. now apply IH2.
  - now rewrite (IH1 x c1 c2 Hc), (IH2 x c1 c2 Hc).
  - apply IH. intros y. apply Hc.
  - now apply repeat_matcher_ext.
Qed.

Lemma repeat_free_fuel (input : chars) (r : regex) (grp : list nat) :
  forall fuel1 fuel2 max greedy x c,
    length (rest x) < fuel1 ->
    length (rest x) < fuel2 ->
    repeat_free (matcher input r) grp fuel1 max greedy x c
    = repeat_free (matcher input r) grp fuel2 max greedy x c.
Proof.
  induction fuel1 as [|fuel1 IH]; intros fuel2 max greedy x c H1 H2; [lia|].
  destruct fuel2 as [|fuel2]; [lia|]. cbn [repeat_free].
  destruct (max_is_zero max); [reflexivity|].
  rewrite (matcher_ext input r (clear_captures grp x) _
             (fun y => if length (rest y) <? length (rest x)
                       then repeat_free (matcher input r) grp fuel2
                              (max_pred max) greedy y c
                       else None)).
  - reflexivity.
  - intros y. destruct (Nat.ltb_spec (length (rest y)) (length (rest x)));
      [|reflexivity].
    apply IH; lia.
Qed.

(** *** Greedy runs of a one-character test

    A greedy repetition of a one-character test reads the longest run of
    characters that pass it, when giving characters back cannot help. *)

Lemma run_decides_stop (p : ascii -> bool) (c : cont) :
  (forall y, starts_with p (rest y) = true -> c y = None) ->
  run_decides p c.
Proof. intros H s cs Hs _. now apply H. Qed.

Lemma run_decides_total (p : ascii -> bool) (c : cont) :
  (forall y, c y <> None) -> run_decides p c.
Proof. intros H s cs _ Hnone. now apply H in Hnone. Qed.

Lemma repeat_free_greedy_run (p : ascii -> bool) (c : cont) :
  run_decides p c ->
  forall (s : chars) (cs : captures) (fuel : nat),
    length s < fuel ->
    repeat_free (one_char p) [] fuel None true (MState s cs) c
    = c (MState (skip_while p s) cs).
Proof.
  intros Hc s. induction s as [|a s IH]; intros cs fuel Hfuel.
  - destruct fuel as [|fuel]; [simpl in Hfuel; lia|]. reflexivity.
  - destruct fuel as [|fuel]; [simpl in Hfuel; lia|].
    simpl in Hfuel. cbn [repeat_free max_is_zero].
    unfold one_char at 1. cbn [clear_captures rest caps fold_right skip_while].
    destruct (p a) eqn:Hpa; [|reflexivity].
    assert (Hlt : (length s <? length (a :: s)) = true)
      by (apply Nat.ltb_lt; simpl; lia).
    rewrite Hlt. cbn [max_pred option_map].
    rewrite IH by lia.
    destruct (c (MState (skip_while p s) cs)) eqn:Hk; [reflexivity|].
    apply Hc; simpl; [exact Hpa | now rewrite Hpa].
Qed.

(** One mandatory iteration, then the longest run. *)
Lemma repeat_plus_greedy_run (p : ascii -> bool) (c : cont) :
  run_decides p c ->
  forall (s : chars) (cs : captures),
    repeat_matcher (one_char p) [] 1 None true (MState s cs) c
    = if starts_with p s then c (MState (skip_while p s) cs) else None.
Proof.
  intros Hc s cs. cbn [repeat_matcher max_is_zero].
  unfold one_char at 1. cbn [clear_captures rest caps fold_right].
  destruct s as [|a s]; [reflexivity|]. cbn [starts_with skip_while].
  destruct (p a); [|reflexivity].
  cbn [rest max_pred option_map].
  now rewrite repeat_free_greedy_run by (auto; lia).
Qed.

Lemma skip_while_ext (p q : ascii -> bool) (s : chars) :
  (forall a, p a = q a) -> skip_while p s = skip_while q s.
Proof.
  intros H. induction s as [|a s IH]; simpl; [reflexivity|].
  rewrite H, IH. reflexivity.
Qed.

Lemma class_non_slash (a : ascii) :
  class_matches true [ClassChar "/"] a = non_slash a.
Proof.
  unfold class_matches, non_slash. simpl. now rewrite orb_false_r.
Qed.

Lemma skip_while_nil_iff (p : ascii -> bool) (s : chars) :
  skip_while p s = [] <-> forallb p s = true.
Proof.
  induction s as [|a s IH]; simpl; [tauto|].
  destruct (p a); simpl; [exact IH|]. split; discriminate.
Qed.

Lemma starts_with_skip_while (p : ascii -> bool) (s : chars) :
  starts_with p (skip_while p s) = false.
Proof.
  induction s as [|a s IH]; simpl; [reflexivity|].
  destruct (p a) eqn:H; [exact IH|]. simpl. exact H.
Qed.

(** *** Anchored patterns: only position 0 can match *)

Lemma search_bol_later (r : regex) (input suffix : chars) :
  length suffix < length input ->
  search (RSeq RBol r) input suffix = None.
Proof.
  induction suffix as [|a tl IH]; intros Hlen.
  - destruct input; [simpl in Hlen; lia | reflexivity].
  - cbn [search]. unfold match_at. cbn [matcher rest].
    destruct (Nat.eqb_spec (length (a :: tl)) (length input)); [lia|].
    rewrite IH by (simpl in Hlen; lia). reflexivity.
Qed.

Lemma search_bol (r : regex) (input : chars) :
  search (RSeq RBol r) input input
  = option_map (pair []) (matcher input r (MState input []) (fun y => Some y)).
Proof.
  destruct input as [|a tl]; cbn [search]; unfold match_at;
    cbn [matcher rest]; rewrite Nat.eqb_refl.
  - now destruct (matcher [] r _ _).
  - destruct (matcher (a :: tl) r _ _); [reflexivity|].
    rewrite search_bol_later by (simpl; lia). reflexivity.
Qed.

Lemma test_bol (r : regex) (s : string) :
  test (RSeq RBol r) s
  = match matcher (list_ascii_of_string s) r
            (MState (list_ascii_of_string s) []) (fun y => Some y) with
    | Some _ => true
    | None => false
    end.
Proof.
  unfold test, exec. rewrite search_bol.
  now destruct (matcher _ r _ _).
Qed.

(** *** The token pattern of the resolver *)

Lemma match_at_token (input s : chars) :
  match_at (RSeq (RChar ":")
              (RSeq (RQuant 1 None true (RClass true [ClassChar "/"])) REmpty))
    input s
  = match s with
    | a :: tl =>
        if (a =? ":")%char && starts_with non_slash tl
        then Some (MState (skip_while non_slash tl) [])
        else None
    | [] => None
    end.
Proof.
  unfold match_at. cbn [matcher groups_of]. unfold one_char at 1.
  cbn [rest caps]. destruct s as [|a tl]; [reflexivity|].
  destruct (a =? ":")%char; [|reflexivity]. cbn [andb].
  rewrite repeat_plus_greedy_run.
  - destruct tl as [|b tl]; [reflexivity|]. cbn [starts_with].
    rewrite class_non_slash. destruct (non_slash b) eqn:Hb; [|reflexivity].
    f_equal. f_equal. apply skip_while_ext, class_non_slash.
  - apply run_decides_total. discriminate.
Qed.

(** *** Global replacement, one position at a time *)

Lemma replace_from_skip (r : regex) (repl input : chars) (fuel : nat)
    (a : ascii) (tl : chars) :
  match_at r input (a :: tl) = None ->
  replace_from r repl (S fuel) input (a :: tl)
  = a :: replace_from r repl (S fuel) input tl.
Proof.
  intros Hno. cbn [replace_from search]. rewrite Hno.
  destruct (search r input tl) as [[skipped y]|]; [|reflexivity].
  cbn [length app]. rewrite Nat.add_succ_r.
  change (S (length (rest y) + length skipped) <? S (length tl))
    with (length (rest y) + length skipped <? length tl).
  reflexivity.
Qed.

Lemma replace_from_here (r : regex) (repl input : chars) (fuel : nat)
    (s : chars) (y : mstate) :
  match_at r input s = Some y ->
  length (rest y) < length s ->
  replace_from r repl (S fuel) input s
  = repl ++ replace_from r repl fuel input (rest y).
Proof.
  intros Hyes Hlen. cbn [replace_from].
  assert (Hs : search r input s = Some ([], y)).
  { destruct s; cbn [search]; now rewrite Hyes. }
  rewrite Hs. cbn [app length]. rewrite Nat.add_0_r.
  apply Nat.ltb_lt in Hlen. now rewrite Hlen.
Qed.

Lemma wildcard_tokens_in_token (s : chars) :
  wildcard_tokens true s = wildcard_tokens false (skip_while non_slash s).
Proof.
  induction s as [|a s IH]; [reflexivity|]. cbn [wildcard_tokens skip_while].
  destruct (non_slash a) eqn:Ha; [exact IH|].
  unfold non_slash in Ha. apply negb_false_iff in Ha.
  apply Ascii.eqb_eq in Ha. subst a. reflexivity.
Qed.

Lemma replace_from_tokens (input : chars) (fuel : nat) :
  forall s : chars,
    length s < fuel ->
    replace_from
      (RSeq (RChar ":")
         (RSeq (RQuant 1 None true (RClass true [ClassChar "/"])) REmpty))
      wildcard_group fuel input s
    = wildcard_tokens false s.
Proof.
  induction fuel as [|fuel IHfuel]; intros s Hlen; [lia|].
  induction s as [|a tl IHs].
  - reflexivity.
  - pose proof (match_at_token input (a :: tl)) as Hm.
    cbn [wildcard_tokens]. cbv beta iota in Hm.
    destruct ((a =? ":")%char && starts_with non_slash tl) eqn:Htok.
    + rewrite (replace_from_here _ _ _ _ _ _ Hm).
      * cbn [rest]. rewrite IHfuel.
        -- now rewrite wildcard_tokens_in_token.
        -- pose proof (skip_while_length non_slash tl). simpl in Hlen. lia.
      * cbn [rest]. pose proof (skip_while_length non_slash tl). simpl. lia.
    + rewrite (replace_from_skip _ _ _ _ _ _ Hm).
      rewrite IHs by (simpl in Hlen; lia). reflexivity.
Qed.

(** *** Literal text and wildcard groups *)

Lemma matcher_literal (input lit : chars) (r : regex) (s : chars)
    (cs : captures) (c : cont) :
  matcher input (literal lit r) (MState s cs) c
  = match strip_prefix lit s with
    | Some s' => matcher input r (MState s' cs) c
    | None => None
    end.
Proof.
  revert s. induction lit as [|a lit IH]; intros s; [reflexivity|].
  cbn [literal matcher strip_prefix]. unfold one_char. cbn [rest caps].
  destruct s as [|b s]; [reflexivity|].
  destruct (b =? a)%char; [apply IH | reflexivity].
Qed.

Lemma strip_prefix_app (lit s : chars) :
  strip_prefix lit (lit ++ s) = Some s.
Proof.
  induction lit as [|a lit IH]; [reflexivity|].
  cbn [app strip_prefix]. now rewrite Ascii.eqb_refl.
Qed.

Lemma strip_prefix_Some (lit s s' : chars) :
  strip_prefix lit s = Some s' -> s = lit ++ s'.
Proof.
  revert s. induction lit as [|a lit IH]; intros s H.
  - now injection H as ->.
  - destruct s as [|b s]; [discriminate|]. cbn [strip_prefix] in H.
    destruct (Ascii.eqb_spec b a) as [->|]; [|discriminate].
    cbn [app]. f_equal. now apply IH.
Qed.

(** A wildcard group reads the longest run of characters other than a
    slash, which must not be empty, when what follows it cannot start with
    such a character. *)
Lemma matcher_wildcard (input : chars) (n : nat) (s : chars)
    (cs : captures) (c : cont) :
  (forall y, starts_with non_slash (rest y) = true -> c y = None) ->
  matcher input (wildcard n) (MState s cs) c
  = if starts_with non_slash s
    then c (MState (skip_while non_slash s)
              (set_capture n
                 (take_chars (length s - length (skip_while non_slash s)) s)
                 cs))
    else None.
Proof.
  intros Hc. unfold wildcard. cbn [matcher groups_of].
  rewrite repeat_plus_greedy_run.
  - cbn [rest caps].
    rewrite (skip_while_ext _ non_slash s class_non_slash).
    destruct s as [|a s]; [reflexivity|]. cbn [starts_with].
    now rewrite class_non_slash.
  - apply run_decides_stop. intros y Hy. cbn [rest caps]. apply Hc.
    cbn [rest]. destruct (rest y) as [|a tl]; [discriminate|].
    cbn [starts_with] in *. now rewrite class_non_slash in Hy.
Qed.

Lemma matcher_eol (input s : chars) (cs : captures) :
  matcher input (RSeq REol REmpty) (MState s cs) (fun y => Some y)
  = match s with [] => Some (MState [] cs) | _ :: _ => None end.
Proof. now destruct s. Qed.

(** The text [lit], a wildcard group and the end of the input, anchored:
    the paths made of [lit] and at least one more character, none of them
    a slash. *)
Lemma test_literal_wildcard (lit : chars) (n : nat) (path : string) :
  test (RSeq RBol (literal lit (RSeq (wildcard n) (RSeq REol REmpty)))) path
  = match strip_prefix lit (list_ascii_of_string path) with
    | Some s => starts_with non_slash s && forallb non_slash s
    | None => false
    end.
Proof.
  rewrite test_bol, matcher_literal.
  destruct (strip_prefix lit (list_ascii_of_string path)) as [s|];
    [|reflexivity].
  cbn [matcher]. fold (wildcard n).
  rewrite matcher_wildcard.
  - destruct (starts_with non_slash s); [|reflexivity]. cbn [andb rest].
    destruct (skip_while non_slash s) eqn:Hskip.
    + apply skip_while_nil_iff in Hskip. now rewrite Hskip.
    + destruct (forallb non_slash s) eqn:Hall; [|reflexivity].
      apply skip_while_nil_iff in Hall. congruence.
  - intros y Hy. cbn [rest]. destruct (rest y); [discriminate|reflexivity].
Qed.

(** *** The constructor on the pattern of a plain route *)

Lemma parse_quantifier_plain (atom : regex) (b : ascii) (tl : chars) :
  existsb (Ascii.eqb b) (list_ascii_of_string "*+?{") = false ->
  parse_quantifier atom (b :: tl) = Normal (atom, b :: tl).
Proof.
  destruct b as [[] [] [] [] [] [] [] []]; intros H;
    try reflexivity; discriminate H.
Qed.

Lemma parse_quantifier_head_ok (atom : regex) (s : chars) :
  head_ok s = true -> parse_quantifier atom s = Normal (atom, s).
Proof.
  destruct s as [|b tl]; [reflexivity|]. cbn [head_ok]. intros H.
  apply parse_quantifier_plain. now apply negb_true_iff in H.
Qed.

Lemma parse_term_plain (f : nat) (a : ascii) (tl : chars) (n : nat) :
  is_syntax_char a = false ->
  parse_term (S f) (a :: tl) n
  = ('(q, s2) <- parse_quantifier (RChar a) tl ;; Normal (q, s2, n)).
Proof.
  destruct a as [[] [] [] [] [] [] [] []]; intros H;
    try reflexivity; discriminate H.
Qed.

Lemma parse_alternative_step (f : nat) (a : ascii) (tl : chars) (n : nat) :
  existsb (Ascii.eqb a) (list_ascii_of_string "|)") = false ->
  parse_alternative (S f) (a :: tl) n
  = ('(t, s1, n1) <- parse_term f (a :: tl) n ;;
     '(r, s2, n2) <- parse_alternative f s1 n1 ;;
     Normal (RSeq t r, s2, n2)).
Proof.
  destruct a as [[] [] [] [] [] [] [] []]; intros H;
    try reflexivity; discriminate H.
Qed.

Lemma syntax_not_quantifier (a : ascii) :
  is_syntax_char a = false ->
  existsb (Ascii.eqb a) (list_ascii_of_string "*+?{") = false.
Proof.
  destruct a as [[] [] [] [] [] [] [] []]; intros H;
    try reflexivity; discriminate H.
Qed.

Lemma syntax_not_bar (a : ascii) :
  is_syntax_char a = false ->
  existsb (Ascii.eqb a) (list_ascii_of_string "|)") = false.
Proof.
  destruct a as [[] [] [] [] [] [] [] []]; intros H;
    try reflexivity; discriminate H.
Qed.

Lemma head_ok_tail (ps : list piece) :
  forallb plain_piece ps = true -> head_ok (pattern_tail ps) = true.
Proof.
  destruct ps as [|[a|] ps]; cbn; try reflexivity.
  intros H. apply andb_true_iff in H as [Ha _].
  apply negb_true_iff in Ha. apply syntax_not_quantifier in Ha.
  cbn in Ha. now rewrite Ha.
Qed.

Lemma parse_term_wild (f : nat) (s : chars) (n : nat) :
  head_ok s = true ->
  parse_term (S (S (S (S f)))) (wildcard_group ++ s) n
  = Normal (wildcard (S n), s, S n).
Proof.
  intros H. cbn. now rewrite parse_quantifier_head_ok.
Qed.

(** With enough fuel the pieces are read one after the other, each
    wildcard as the next capturing group. *)
Lemma parse_alternative_pieces (ps : list piece) :
  forallb plain_piece ps = true ->
  forall (n fuel : nat),
    length ps + 5 <= fuel ->
    parse_alternative fuel (pattern_tail ps) n
    = Normal (compile ps n, [], n + count_wild ps).
Proof.
  induction ps as [|[a|] ps IH]; intros Hplain n fuel Hfuel.
  - do 2 (destruct fuel as [|fuel]; [simpl in Hfuel; lia|]).
    cbn. now rewrite Nat.add_0_r.
  - cbn [forallb plain_piece] in Hplain.
    apply andb_true_iff in Hplain as [Ha Hps]. apply negb_true_iff in Ha.
    do 2 (destruct fuel as [|fuel]; [simpl in Hfuel; lia|]).
    change (pattern_tail (Lit a :: ps)) with (a :: pattern_tail ps).
    rewrite parse_alternative_step by now apply syntax_not_bar.
    rewrite parse_term_plain by exact Ha.
    rewrite parse_quantifier_head_ok by now apply head_ok_tail.
    cbn [bind]. rewrite IH by (auto; simpl in Hfuel; lia).
    reflexivity.
  - cbn [forallb plain_piece andb] in Hplain.
    do 5 (destruct fuel as [|fuel]; [simpl in Hfuel; lia|]).
    change (pattern_tail (Wild :: ps))
      with ("("%char :: (tl wildcard_group ++ pattern_tail ps)).
    rewrite parse_alternative_step by reflexivity.
    change ("("%char :: (tl wildcard_group ++ pattern_tail ps))
      with (wildcard_group ++ pattern_tail ps).
    rewrite parse_term_wild by now apply head_ok_tail.
    cbn [bind]. rewrite IH by (auto; simpl in Hfuel; lia).
    cbn [compile count_wild]. now rewrite Nat.add_succ_r.
Qed.

Lemma flat_map_render_length (ps : list piece) :
  length ps <= length (flat_map render ps).
Proof.
  induction ps as [|[a|] ps IH]; cbn [flat_map render app length]; [lia|lia|].
  rewrite length_app. cbn. lia.
Qed.

(** The fuel the constructor starts with is enough: the pattern of a
    plain route is always read to the end. *)
Lemma RegExp_new_pieces (ps : list piece) :
  forallb plain_piece ps = true ->
  RegExp_new (string_of_list_ascii ("^"%char :: pattern_tail ps))
  = Normal (RSeq RBol (compile ps 0)).
Proof.
  intros Hplain. unfold RegExp_new.
  rewrite list_ascii_of_string_of_list_ascii.
  cbn [length].
  replace (3 * S (length (pattern_tail ps)) + 3)
    with (S (S (S (length (pattern_tail ps) * 3 + 3)))) by lia.
  cbn [parse_disjunction].
  rewrite parse_alternative_step by reflexivity.
  cbn [parse_term bind].
  rewrite parse_alternative_pieces; [reflexivity|exact Hplain|].
  unfold pattern_tail. rewrite length_app. cbn [length].
  pose proof (flat_map_render_length ps). lia.
Qed.

(** The backtracking matcher on the compiled pieces decides
    [pieces_match]: giving back characters of a wildcard never helps,
    because what follows a wildcard is a slash or the end. *)
Lemma matcher_compile (input : chars) (ps : list piece) :
  well_formed ps = true ->
  forall (n : nat) (s : chars) (cs : captures),
    is_some (matcher input (compile ps n) (MState s cs) (fun y => Some y))
    = pieces_match ps s.
Proof.
  induction ps as [|[a|] ps IH]; intros Hwf n s cs.
  - now destruct s.
  - cbn [compile matcher pieces_match]. unfold one_char. cbn [rest caps].
    destruct s as [|b s]; [reflexivity|].
    destruct (b =? a)%char; [|reflexivity]. now apply IH.
  - cbn [compile matcher pieces_match].
    rewrite matcher_wildcard.
    + destruct (starts_with non_slash s); [|reflexivity]. cbn [andb].
      apply IH. cbn [well_formed] in Hwf.
      destruct ps as [|[a|] ps]; [reflexivity| |discriminate].
      now apply andb_true_iff in Hwf as [_ Hwf].
    + intros y Hy. cbn [well_formed] in Hwf.
      destruct ps as [|[a|] ps]; [| |discriminate].
      * cbn. destruct (rest y); [discriminate|reflexivity].
      * apply andb_true_iff in Hwf as [Ha _].
        apply Ascii.eqb_eq in Ha. subst a.
        cbn [compile matcher]. unfold one_char.
        destruct (rest y) as [|b tl]; [reflexivity|].
        cbn [starts_with] in Hy. unfold non_slash in Hy.
        apply negb_true_iff in Hy. now rewrite Hy.
Qed.

End RegExpFacts.

(** * Facts about route patterns *)

Module RouteFacts.

Import RegExpFacts.

(** The pattern text is the spec's: every token replaced, between the
    anchors. *)
Lemma route_pattern_tokens (route : string) :
  route_pattern route = ("^" ++ substitute_tokens route ++ "$")%string.
Proof.
  unfold route_pattern, replace_all, substitute_tokens.
  now rewrite replace_from_tokens by lia.
Qed.

(** *** Tokens anywhere in a segment *)

Lemma wildcard_tokens_colon_free (pre s : chars) :
  forallb (fun c => negb (c =? ":")%char) pre = true ->
  wildcard_tokens false (pre ++ s) = pre ++ wildcard_tokens false s.
Proof.
  induction pre as [|a pre IH]; intros H; [reflexivity|].
  cbn [forallb] in H. apply andb_true_iff in H as [Ha Hpre].
  cbn [app wildcard_tokens]. apply negb_true_iff in Ha. rewrite Ha.
  cbn [andb]. now rewrite IH.
Qed.

Lemma wildcard_tokens_name (name post : chars) :
  forallb non_slash name = true ->
  starts_with non_slash post = false ->
  wildcard_tokens true (name ++ post) = wildcard_tokens false post.
Proof.
  intros Hname Hpost. rewrite wildcard_tokens_in_token. f_equal.
  induction name as [|a name IH]; cbn [app].
  - destruct post as [|b post]; [reflexivity|]. cbn [starts_with] in Hpost.
    cbn [skip_while]. now rewrite Hpost.
  - cbn [forallb] in Hname. apply andb_true_iff in Hname as [Ha Hname].
    cbn [skip_while]. rewrite Ha. now apply IH.
Qed.

Lemma substitute_tokens_token (pre name post : string) :
  colon_free pre = true ->
  name <> "" ->
  slash_free name = true ->
  (post = "" \/ exists post', post = ("/" ++ post')%string) ->
  substitute_tokens (pre ++ ":" ++ name ++ post)
  = (pre ++ "([^/]+)" ++ substitute_tokens post)%string.
Proof.
  intros Hpre Hne Hname Hpost. unfold substitute_tokens.
  rewrite !list_ascii_of_string_app.
  rewrite wildcard_tokens_colon_free by exact Hpre.
  rewrite string_of_list_ascii_app, string_of_list_ascii_of_string.
  f_equal. cbn [list_ascii_of_string app wildcard_tokens].
  assert (Hstart : starts_with non_slash
                     (list_ascii_of_string name ++ list_ascii_of_string post)
                   = true).
  { unfold slash_free in Hname. destruct name as [|a name]; [congruence|].
    cbn [list_ascii_of_string forallb app starts_with] in *.
    now apply andb_true_iff in Hname as [Ha _]. }
  rewrite Hstart. cbn [Ascii.eqb Bool.eqb andb].
  rewrite string_of_list_ascii_app. f_equal.
  rewrite wildcard_tokens_name; [reflexivity|exact Hname|].
  destruct Hpost as [->|[post' ->]]; reflexivity.
Qed.

(** *** Patterns of the shape text, wildcard, end *)

Lemma starts_and_all (l : chars) :
  starts_with non_slash l && forallb non_slash l
  = negb (string_of_list_ascii l =? "")%string
    && forallb non_slash l.
Proof.
  destruct l as [|a l]; [reflexivity|]. cbn [starts_with forallb].
  cbn [string_of_list_ascii String.eqb negb]. now destruct (non_slash a).
Qed.

Lemma RegExp_test_literal_wildcard (pattern : string) (lit : chars)
    (path : string) :
  RegExp_new pattern
  = Normal (RSeq RBol (literal lit (RSeq (wildcard 1) (RSeq REol REmpty)))) ->
  RegExp_test pattern path = Normal true <->
  exists s : string,
    path = (string_of_list_ascii lit ++ s)%string
    /\ s <> "" /\ slash_free s = true.
Proof.
  intros Hnew. unfold RegExp_test. rewrite Hnew. cbn [bind].
  rewrite test_literal_wildcard.
  destruct (strip_prefix lit (list_ascii_of_string path)) as [l|] eqn:Hstrip.
  - apply strip_prefix_Some in Hstrip.
    assert (Hpath : path
                    = (string_of_list_ascii lit ++ string_of_list_ascii l)%string).
    { rewrite <- string_of_list_ascii_app, <- Hstrip.
      now rewrite string_of_list_ascii_of_string. }
    rewrite starts_and_all. split.
    + intros H. injection H as H. apply andb_true_iff in H as [Hne Hall].
      exists (string_of_list_ascii l). repeat split; auto.
      * apply negb_true_iff in Hne. now apply String.eqb_neq in Hne.
      * unfold slash_free. now rewrite list_ascii_of_string_of_list_ascii.
    + intros (s & Hs & Hne & Hall). f_equal.
      assert (Hl : l = list_ascii_of_string s).
      { rewrite Hs, list_ascii_of_string_app in Hstrip.
        rewrite list_ascii_of_string_of_list_ascii in Hstrip.
        now apply app_inv_head in Hstrip. }
      subst l. rewrite string_of_list_ascii_of_string.
      apply String.eqb_neq in Hne. rewrite Hne. exact Hall.
  - split; [discriminate|]. intros (s & Hs & _). exfalso.
    rewrite Hs, list_ascii_of_string_app in Hstrip.
    rewrite list_ascii_of_string_of_list_ascii in Hstrip.
    now rewrite strip_prefix_app in Hstrip.
Qed.

(** *** Plain routes: the pattern decides [route_matches] *)

Lemma well_formed_pieces (s : chars) :
  well_formed (pieces_of false s) = true
  /\ well_formed (Wild :: pieces_of true s) = true.
Proof.
  induction s as [|a s [IH1 IH2]]; [split; reflexivity|]. split.
  - cbn [pieces_of].
    destruct ((a =? ":")%char && starts_with non_slash s); assumption.
  - cbn [pieces_of]. destruct (non_slash a) eqn:Ha; [exact IH2|].
    unfold non_slash in Ha. apply negb_false_iff in Ha.
    cbn [well_formed]. now rewrite Ha, IH1.
Qed.

Lemma wildcard_tokens_pieces (b : bool) (s : chars) :
  wildcard_tokens b s = flat_map render (pieces_of b s).
Proof.
  revert b. induction s as [|a s IH]; intros b; [reflexivity|].
  cbn [wildcard_tokens pieces_of]. destruct b.
  - destruct (non_slash a); [apply IH|]. cbn [flat_map render app].
    now rewrite IH.
  - destruct ((a =? ":")%char && starts_with non_slash s);
      cbn [flat_map render app]; now rewrite IH.
Qed.

(** For a plain route the whole pipeline (replacement of the tokens,
    construction of the regular expression, backtracking search) comes to
    matching the path against the pieces of the route. *)
Lemma plain_route_pattern (route path : string) :
  plain_route route = true ->
  RegExp_test (route_pattern route) path = Normal (route_matches route path).
Proof.
  intros Hplain. unfold RegExp_test.
  assert (Hpat : route_pattern route
                 = string_of_list_ascii
                     ("^"%char :: pattern_tail
                        (pieces_of false (list_ascii_of_string route)))).
  { rewrite route_pattern_tokens. unfold substitute_tokens, pattern_tail.
    rewrite wildcard_tokens_pieces. cbn [string_of_list_ascii String.append].
    f_equal. now rewrite string_of_list_ascii_app. }
  rewrite Hpat, RegExp_new_pieces by exact Hplain. cbn [bind]. f_equal.
  rewrite test_bol. unfold route_matches.
  rewrite <- (matcher_compile (list_ascii_of_string path) _
                (proj1 (well_formed_pieces _)) 0 (list_ascii_of_string path) []).
  now destruct (matcher _ _ _ _).
Qed.

End RouteFacts.

(** * Facts about the resolver *)

Section ResolverFacts.

Variable World : Type.

Implicit Types (config : MetadataConfig World) (entry : RouteEntry World).
Implicit Types (path route : string).

Lemma matchRoute_keys_none path (keys : list string) :
  (forall r, In r keys -> RegExp_test (route_pattern r) path = Normal false) ->
  matchRoute_keys path keys = Normal None.
Proof.
  induction keys as [|k keys IH]; intros H; [reflexivity|].
  cbn [matchRoute_keys]. rewrite (H k) by now left.
  cbn [bind]. apply IH. intros r Hr. apply H. now right.
Qed.

Lemma matchRoute_keys_first path (before after : list string) route :
  (forall r, In r before -> RegExp_test (route_pattern r) path = Normal false) ->
  RegExp_test (route_pattern route) path = Normal true ->
  matchRoute_keys path (before ++ route :: after) = Normal (Some route).
Proof.
  induction before as [|k before IH]; intros Hbefore Hroute.
  - cbn [app matchRoute_keys]. now rewrite Hroute.
  - cbn [app matchRoute_keys]. rewrite (Hbefore k) by now left.
    cbn [bind]. apply IH; [|exact Hroute].
    intros r Hr. apply Hbefore. now right.
Qed.

(* What [matchRoute] returns is the first key that tests true, every key
   before it having tested false. *)
Lemma matchRoute_keys_some path (keys : list string) route :
  matchRoute_keys path keys = Normal (Some route) ->
  exists before after,
    keys = before ++ route :: after
    /\ (forall r, In r before ->
          RegExp_test (route_pattern r) path = Normal false)
    /\ RegExp_test (route_pattern route) path = Normal true.
Proof.
  induction keys as [|k keys IH]; intros H; [discriminate|].
  cbn [matchRoute_keys] in H.
  destruct (RegExp_test (route_pattern k) path) as [[|]| |] eqn:Hk;
    cbn [bind] in H; try discriminate.
  - injection H as <-. exists [], keys. repeat split; auto.
    intros r [].
  - destruct (IH H) as (before & after & -> & Hb & Hr).
    exists (k :: before), after. repeat split; auto.
    intros r [<-|Hin]; auto.
Qed.

Lemma matchRoute_keys_null path (keys : list string) :
  matchRoute_keys path keys = Normal None ->
  forall r, In r keys -> RegExp_test (route_pattern r) path = Normal false.
Proof.
  induction keys as [|k keys IH]; intros H r Hin; [destruct Hin|].
  cbn [matchRoute_keys] in H.
  destruct (RegExp_test (route_pattern k) path) as [[|]| |] eqn:Hk;
    cbn [bind] in H; try discriminate.
  destruct Hin as [<-|Hin]; auto.
Qed.

Lemma Object_keys_app {A : Type} (o1 o2 : Record_ A) :
  Object_keys (o1 ++ o2) = Object_keys o1 ++ Object_keys o2.
Proof. apply map_app. Qed.

Lemma get_property_first {A : Type} (before after : Record_ A)
    (k : string) (v : A) :
  ~ In k (Object_keys before) ->
  get_property (before ++ (k, v) :: after) k = Some v.
Proof.
  induction before as [|[k' v'] before IH]; intros Hnot.
  - cbn [app get_property]. now rewrite String.eqb_refl.
  - cbn [app get_property]. destruct (String.eqb_spec k' k) as [->|Hne].
    + exfalso. apply Hnot. now left.
    + apply IH. intros Hin. apply Hnot. now right.
Qed.

Lemma get_property_In {A : Type} (o : Record_ A) (k : string) (v : A) :
  get_property o k = Some v -> In (k, v) o.
Proof.
  induction o as [|[k' v'] o IH]; [discriminate|]. cbn [get_property].
  destruct (String.eqb_spec k' k) as [->|Hne]; intros H.
  - injection H as ->. now left.
  - right. auto.
Qed.

Lemma falsy_Some route : falsy (Some route) = false <-> route <> "".
Proof.
  unfold falsy. destruct (String.eqb_spec route ""); split; congruence.
Qed.

Lemma resolveMetadata_unmatched config path ps (w : World) :
  matchRoute path config = Normal None ->
  resolveMetadata config path ps w
  = (Normal (match defaults config with
             | Some d => d
             | None => empty_meta
             end), w).
Proof. intros H. unfold resolveMetadata. now rewrite H. Qed.

Lemma resolveMetadata_matched config path route entry ps (w : World) :
  matchRoute path config = Normal (Some route) ->
  route <> "" ->
  get_property (routes config) route = Some entry ->
  resolveMetadata config path ps w = resolved_entry config entry ps w.
Proof.
  intros Hm Hne Hget. unfold resolveMetadata. rewrite Hm.
  apply falsy_Some in Hne. rewrite Hne, Hget.
  destruct entry as [m|f]; [reflexivity|]. cbn [resolved_entry].
  now destruct (f _ w).
Qed.

(* The empty key is falsy: a route under it is matched and then dropped. *)
Lemma resolveMetadata_empty_key config path ps (w : World) :
  matchRoute path config = Normal (Some "") ->
  resolveMetadata config path ps w
  = (Normal (match defaults config with
             | Some d => d
             | None => empty_meta
             end), w).
Proof. intros H. unfold resolveMetadata. now rewrite H. Qed.

End ResolverFacts.

(** * Facts about the hydrator *)

Module HydratorFacts.

Lemma getAttribute_set (attrs : list (string * string)) (name value a : string) :
  getAttribute (set_attribute attrs name value) a
  = if (a =? name)%string then Some value else getAttribute attrs a.
Proof.
  induction attrs as [|[n v] attrs IH]; cbn [set_attribute getAttribute].
  - rewrite String.eqb_sym. reflexivity.
  - destruct (String.eqb_spec n name) as [->|Hn]; cbn [getAttribute].
    + rewrite (String.eqb_sym name a). now destruct (String.eqb_spec a name).
    + rewrite IH. destruct (String.eqb_spec n a) as [->|Hna]; [|reflexivity].
      destruct (String.eqb_spec a name); congruence.
Qed.

Lemma matches_setAttribute (sel : selector) (e : element)
    (name value : string) :
  sel_attr sel <> name ->
  matches sel (setAttribute e name value) = matches sel e.
Proof.
  intros Hne. unfold matches, setAttribute. cbn [tagName attributes].
  rewrite getAttribute_set. apply String.eqb_neq in Hne. now rewrite Hne.
Qed.

Lemma find_index_find {A : Type} (p : A -> bool) (l : list A) :
  match find_index p l with
  | Some i => nth_error l i = find p l /\ find p l <> None
  | None => find p l = None
  end.
Proof.
  induction l as [|a l IH]; cbn [find_index find]; [reflexivity|].
  destruct (p a); [split; [reflexivity|discriminate]|].
  destruct (find_index p l); cbn [option_map nth_error]; exact IH.
Qed.

Lemma find_app {A : Type} (p : A -> bool) (l1 l2 : list A) :
  find p (l1 ++ l2)
  = match find p l1 with Some a => Some a | None => find p l2 end.
Proof.
  induction l1 as [|a l1 IH]; cbn [app find]; [reflexivity|].
  now destruct (p a).
Qed.

Lemma select_find (doc : document) (sel : selector) :
  select doc sel = find (matches sel) (elements doc).
Proof.
  unfold select, querySelector, elements. rewrite find_app.
  pose proof (find_index_find (matches sel) (head doc)) as Hh.
  pose proof (find_index_find (matches sel) (body doc)) as Hb.
  destruct (find_index (matches sel) (head doc)) as [i|].
  - cbn [element_at]. destruct Hh as [-> Hsome].
    now destruct (find (matches sel) (head doc)).
  - rewrite Hh. destruct (find_index (matches sel) (body doc)) as [j|];
      cbn [option_map element_at]; [now destruct Hb | now rewrite Hb].
Qed.

Lemma update_nth_first {A : Type} (p : A -> bool) (f : A -> A) (l : list A)
    (i : nat) :
  find_index p l = Some i -> update_nth i f l = update_first p f l.
Proof.
  revert i. induction l as [|a l IH]; intros i; [discriminate|].
  cbn [find_index update_first]. destruct (p a).
  - now intros [= <-].
  - destruct (find_index p l) as [j|]; [|discriminate].
    cbn [option_map]. intros [= <-]. cbn [update_nth]. f_equal. now apply IH.
Qed.

Lemma update_first_none {A : Type} (p : A -> bool) (f : A -> A) (l : list A) :
  find_index p l = None -> update_first p f l = l.
Proof.
  induction l as [|a l IH]; [reflexivity|]. cbn [find_index update_first].
  destruct (p a); [discriminate|].
  destruct (find_index p l); [discriminate|]. intros _. f_equal. now apply IH.
Qed.

Lemma update_first_app {A : Type} (p : A -> bool) (f : A -> A)
    (l1 l2 : list A) :
  update_first p f (l1 ++ l2)
  = match find_index p l1 with
    | Some _ => update_first p f l1 ++ l2
    | None => l1 ++ update_first p f l2
    end.
Proof.
  induction l1 as [|a l1 IH]; cbn [app find_index update_first]; [reflexivity|].
  destruct (p a); [reflexivity|]. rewrite IH.
  now destruct (find_index p l1).
Qed.

(** Setting an attribute through the node a selector found changes the
    first element that matches the selector, and only that one. *)
Lemma elements_setAttribute_at (doc : document) (sel : selector) (n : node)
    (name value : string) :
  querySelector doc sel = Some n ->
  elements (setAttribute_at n name value doc)
  = update_first (matches sel) (fun e => setAttribute e name value)
      (elements doc).
Proof.
  unfold querySelector, elements. rewrite update_first_app.
  destruct (find_index (matches sel) (head doc)) as [i|] eqn:Hh.
  - intros [= <-]. cbn [setAttribute_at head body].
    now rewrite (update_nth_first _ _ _ _ Hh).
  - destruct (find_index (matches sel) (body doc)) as [j|] eqn:Hb;
      [|discriminate].
    cbn [option_map]. intros [= <-]. cbn [setAttribute_at head body].
    now rewrite (update_nth_first _ _ _ _ Hb).
Qed.

Lemma querySelector_none (doc : document) (sel : selector) :
  querySelector doc sel = None <-> find (matches sel) (elements doc) = None.
Proof.
  rewrite <- select_find. unfold select, querySelector.
  pose proof (find_index_find (matches sel) (head doc)) as Hh.
  pose proof (find_index_find (matches sel) (body doc)) as Hb.
  destruct (find_index (matches sel) (head doc)) as [i|].
  - cbn [element_at]. destruct Hh as [-> Hsome]. split; [discriminate|tauto].
  - destruct (find_index (matches sel) (body doc)) as [j|];
      cbn [option_map element_at]; [|tauto].
    destruct Hb as [-> Hsome]. split; [discriminate|tauto].
Qed.

Lemma updateMeta_steps (meta : RouteMeta) (doc : document) :
  updateMeta meta doc
  = apply_truthy (openGraph_image meta) (upsert meta_og_image)
      (apply_truthy (description meta) (upsert meta_description)
         (apply_truthy (title meta) set_title doc)).
Proof. reflexivity. Qed.

Lemma truthy_not_empty (v : option string) (s : string) :
  truthy v = Some s -> s <> "".
Proof.
  destruct v as [t|]; [|discriminate]. cbn [truthy].
  destruct (String.eqb_spec t ""); [discriminate|]. now intros [= <-].
Qed.

Lemma update_nth_last {A : Type} (f : A -> A) (l : list A) (a : A) :
  update_nth (length l) f (l ++ [a]) = l ++ [f a].
Proof. induction l as [|b l IH]; cbn; [reflexivity | now rewrite IH]. Qed.

Lemma upsert_created_eq (sel : selector) (content : string) (doc : document) :
  sel_attr sel <> "content" ->
  querySelector doc sel = None ->
  upsert sel content doc
  = {| doc_title := doc_title doc;
       head := head doc ++ [new_meta sel content];
       body := body doc |}.
Proof.
  intros Hne Hq. unfold upsert. rewrite Hq.
  cbn [appendChild_head setAttribute_at doc_title head body].
  rewrite update_nth_last. unfold new_meta, setAttribute, createElement.
  cbn [tagName attributes set_attribute].
  apply String.eqb_neq in Hne. now rewrite Hne.
Qed.

Lemma upsert_upserted (sel : selector) (content : string) (doc : document) :
  sel_attr sel <> "content" ->
  upserted sel content doc (upsert sel content doc).
Proof.
  intros Hne. destruct (querySelector doc sel) as [n|] eqn:Hq.
  - pose proof (select_find doc sel) as Hsel. unfold select in Hsel.
    rewrite Hq in Hsel.
    destruct (element_at doc n) as [e|] eqn:He.
    + apply (upsert_existing _ _ _ _ n e Hq He). unfold upsert. now rewrite Hq.
    + exfalso. symmetry in Hsel.
      apply (proj2 (querySelector_none doc sel)) in Hsel. congruence.
  - apply upsert_created; [exact Hq|]. now apply upsert_created_eq.
Qed.

(** The elements after one block: the first match has its content set, or
    a new element stands at the end of head. *)
Lemma elements_upsert (sel : selector) (content : string) (doc : document) :
  sel_attr sel <> "content" ->
  elements (upsert sel content doc)
  = match find (matches sel) (elements doc) with
    | Some _ =>
        update_first (matches sel)
          (fun e => setAttribute e "content" content) (elements doc)
    | None => head doc ++ new_meta sel content :: body doc
    end.
Proof.
  intros Hne. destruct (querySelector doc sel) as [n|] eqn:Hq.
  - destruct (find (matches sel) (elements doc)) eqn:Hf.
    + unfold upsert. rewrite Hq. now apply elements_setAttribute_at.
    + apply querySelector_none in Hf. congruence.
  - rewrite (upsert_created_eq _ _ _ Hne Hq).
    rewrite (proj1 (querySelector_none doc sel) Hq).
    unfold elements. cbn [head body]. now rewrite <- app_assoc.
Qed.

Lemma doc_title_upsert (sel : selector) (content : string) (doc : document) :
  doc_title (upsert sel content doc) = doc_title doc.
Proof.
  unfold upsert. destruct (querySelector doc sel) as [[i|i]|]; reflexivity.
Qed.

(** *** What a change of one element leaves alone *)

Lemma find_update_first_other {A : Type} (p q : A -> bool) (f : A -> A)
    (l : list A) :
  (forall a, q (f a) = q a) ->
  forallb (fun a => negb (p a && q a)) l = true ->
  find q (update_first p f l) = find q l.
Proof.
  intros Hq. induction l as [|a l IH]; [reflexivity|].
  cbn [forallb update_first find]. intros H.
  apply andb_true_iff in H as [Ha Hl].
  destruct (p a) eqn:Hp; cbn [find].
  - rewrite Hq. cbn [andb] in Ha. apply negb_true_iff in Ha. now rewrite Ha.
  - destruct (q a); [reflexivity|]. now apply IH.
Qed.

Lemma find_update_first_self {A : Type} (p : A -> bool) (f : A -> A)
    (l : list A) :
  (forall a, p (f a) = p a) ->
  find p (update_first p f l) = option_map f (find p l).
Proof.
  intros Hp. induction l as [|a l IH]; [reflexivity|].
  cbn [update_first find]. destruct (p a) eqn:Ha; cbn [find].
  - now rewrite Hp, Ha.
  - now rewrite Ha.
Qed.

Lemma find_insert_other {A : Type} (q : A -> bool) (l1 l2 : list A) (a : A) :
  q a = false -> find q (l1 ++ a :: l2) = find q (l1 ++ l2).
Proof.
  intros Ha. rewrite !find_app. cbn [find]. now rewrite Ha.
Qed.

Lemma forallb_update_first {A : Type} (g p : A -> bool) (f : A -> A)
    (l : list A) :
  (forall a, g (f a) = g a) ->
  forallb g (update_first p f l) = forallb g l.
Proof.
  intros Hg. induction l as [|a l IH]; [reflexivity|].
  cbn [update_first]. destruct (p a); cbn [forallb]; [now rewrite Hg|].
  now rewrite IH.
Qed.

Lemma shared_setAttribute (e : element) (value : string) :
  shared (setAttribute e "content" value) = shared e.
Proof.
  unfold shared. now rewrite !matches_setAttribute by discriminate.
Qed.

Lemma swap_shared (e : element) :
  matches meta_og_image e && matches meta_description e = shared e.
Proof. apply andb_comm. Qed.

(** *** Elements are never removed *)

Lemma kept_refl (e : element) : kept e e.
Proof. split; [reflexivity|]. intros a. now left. Qed.

Lemma kept_trans (e1 e2 e3 : element) : kept e1 e2 -> kept e2 e3 -> kept e1 e3.
Proof.
  intros [Ht1 Ha1] [Ht2 Ha2]. split; [congruence|]. intros a.
  destruct (Ha2 a) as [H2|H2]; [|now right].
  destruct (Ha1 a) as [H1|H1]; [left; congruence|].
  right. destruct H1 as (Hc & v & Hv & Hget). split; [exact Hc|].
  exists v. split; [exact Hv|congruence].
Qed.

Lemma kept_setAttribute (e : element) (value : string) :
  value <> "" -> kept e (setAttribute e "content" value).
Proof.
  intros Hne. split; [reflexivity|]. intros a.
  unfold setAttribute. cbn [attributes]. rewrite getAttribute_set.
  destruct (String.eqb_spec a "content") as [->|]; [|now left].
  right. split; [reflexivity|]. now exists value.
Qed.

Lemma embeds_refl (l : list element) : embeds l l.
Proof.
  induction l; constructor; [apply kept_refl | assumption].
Qed.

Lemma embeds_trans (l1 l2 l3 : list element) :
  embeds l1 l2 -> embeds l2 l3 -> embeds l1 l3.
Proof.
  intros H12 H23. revert l1 H12.
  induction H23 as [|e e' l l' Hk H IH|e' l l' H IH]; intros l1 H12.
  - exact H12.
  - inversion H12 as [|e0 e0' l0 l0' Hk0 H0|e0' l0 l0' H0]; subst.
    + apply embeds_kept; [now apply (kept_trans _ e)|now apply IH].
    + apply embeds_added. now apply IH.
  - apply embeds_added. now apply IH.
Qed.

Lemma embeds_update_first (p : element -> bool) (f : element -> element)
    (l : list element) :
  (forall e, kept e (f e)) -> embeds l (update_first p f l).
Proof.
  intros Hk. induction l as [|a l IH]; [constructor|].
  cbn [update_first]. destruct (p a).
  - apply embeds_kept; [apply Hk | apply embeds_refl].
  - apply embeds_kept; [apply kept_refl | exact IH].
Qed.

Lemma embeds_insert (l1 l2 : list element) (e : element) :
  embeds (l1 ++ l2) (l1 ++ e :: l2).
Proof.
  induction l1 as [|a l1 IH]; cbn [app].
  - apply embeds_added, embeds_refl.
  - apply embeds_kept; [apply kept_refl | exact IH].
Qed.

Lemma embeds_upsert (sel : selector) (content : string) (doc : document) :
  sel_attr sel <> "content" ->
  content <> "" ->
  embeds (elements doc) (elements (upsert sel content doc)).
Proof.
  intros Hsel Hne. rewrite elements_upsert by exact Hsel.
  destruct (find (matches sel) (elements doc)) as [found|].
  - apply embeds_update_first. intros e. now apply kept_setAttribute.
  - apply embeds_insert.
Qed.

(** *** One block, seen through the selectors *)

Lemma matches_new_meta (sel : selector) (content : string) :
  sel_tag sel = "meta" -> matches sel (new_meta sel content) = true.
Proof.
  intros Htag. unfold matches, new_meta. cbn [tagName attributes getAttribute].
  now rewrite Htag, !String.eqb_refl.
Qed.

Lemma content_of_upsert (sel : selector) (content : string) (doc : document) :
  sel_tag sel = "meta" ->
  sel_attr sel <> "content" ->
  content_of (upsert sel content doc) sel = Some content.
Proof.
  intros Htag Hattr. unfold content_of.
  rewrite select_find, elements_upsert by exact Hattr.
  destruct (find (matches sel) (elements doc)) as [e|] eqn:Hf.
  - rewrite find_update_first_self, Hf.
    + cbn [option_map setAttribute attributes].
      now rewrite getAttribute_set, String.eqb_refl.
    + intros a. now apply matches_setAttribute.
  - unfold elements in Hf. rewrite find_app in Hf.
    destruct (find (matches sel) (head doc)) eqn:Hh; [discriminate|].
    rewrite find_app, Hh. cbn [find].
    rewrite matches_new_meta by exact Htag.
    unfold new_meta. cbn [attributes getAttribute].
    apply String.eqb_neq in Hattr. now rewrite Hattr, String.eqb_refl.
Qed.

Lemma select_upsert_other (sel other : selector) (content : string)
    (doc : document) :
  sel_attr sel <> "content" ->
  sel_attr other <> "content" ->
  matches other (new_meta sel content) = false ->
  forallb (fun e => negb (matches sel e && matches other e)) (elements doc)
  = true ->
  select (upsert sel content doc) other = select doc other.
Proof.
  intros Hsel Hother Hnew Hdisjoint.
  rewrite !select_find, elements_upsert by exact Hsel.
  destruct (find (matches sel) (elements doc)).
  - apply find_update_first_other; [|exact Hdisjoint].
    intros a. now apply matches_setAttribute.
  - unfold elements. now apply find_insert_other.
Qed.

Lemma no_shared_upsert (sel : selector) (content : string) (doc : document) :
  sel_attr sel <> "content" ->
  shared (new_meta sel content) = false ->
  no_shared_element doc = true ->
  no_shared_element (upsert sel content doc) = true.
Proof.
  intros Hsel Hnew Hdoc. unfold no_shared_element in *.
  rewrite elements_upsert by exact Hsel.
  destruct (find (matches sel) (elements doc)).
  - rewrite forallb_update_first; [exact Hdoc|].
    intros a. now rewrite shared_setAttribute.
  - unfold elements in Hdoc. rewrite forallb_app in *.
    cbn [forallb]. rewrite Hnew. exact Hdoc.
Qed.

Lemma no_shared_swap (doc : document) :
  no_shared_element doc = true ->
  forallb (fun e => negb (matches meta_og_image e && matches meta_description e))
    (elements doc) = true.
Proof.
  unfold no_shared_element. intros H.
  induction (elements doc) as [|e l IH]; [reflexivity|].
  cbn [forallb] in *. apply andb_true_iff in H as [He Hl].
  now rewrite swap_shared, He, IH.
Qed.

(** *** The three steps of [updateMeta], one at a time *)

Lemma select_set_title (t : string) (doc : document) (sel : selector) :
  select (set_title t doc) sel = select doc sel.
Proof. reflexivity. Qed.

Lemma doc_title_updateMeta (meta : RouteMeta) (doc : document) :
  doc_title (updateMeta meta doc)
  = match truthy (title meta) with
    | Some t => t
    | None => doc_title doc
    end.
Proof.
  rewrite updateMeta_steps. unfold apply_truthy.
  destruct (truthy (openGraph_image meta)), (truthy (description meta));
    rewrite ?doc_title_upsert; now destruct (truthy (title meta)).
Qed.

Lemma no_shared_updateMeta (meta : RouteMeta) (doc : document) :
  no_shared_element doc = true ->
  no_shared_element (updateMeta meta doc) = true.
Proof.
  intros H. rewrite updateMeta_steps. unfold apply_truthy.
  assert (H1 : no_shared_element
                 match truthy (title meta) with
                 | Some s => set_title s doc
                 | None => doc
                 end = true)
    by now destruct (truthy (title meta)).
  destruct (truthy (openGraph_image meta)), (truthy (description meta));
    repeat (apply no_shared_upsert;
            [discriminate | reflexivity | idtac]); exact H1.
Qed.

Lemma embeds_updateMeta (meta : RouteMeta) (doc : document) :
  embeds (elements doc) (elements (updateMeta meta doc)).
Proof.
  rewrite updateMeta_steps. unfold apply_truthy.
  set (d1 := match truthy (title meta) with
             | Some s => set_title s doc
             | None => doc
             end).
  assert (H1 : embeds (elements doc) (elements d1)).
  { subst d1. destruct (truthy (title meta)); apply embeds_refl. }
  destruct (truthy (description meta)) as [d|] eqn:Hd.
  - apply truthy_not_empty in Hd.
    assert (H2 : embeds (elements doc) (elements (upsert meta_description d d1))).
    { apply (embeds_trans _ _ _ H1). now apply embeds_upsert. }
    destruct (truthy (openGraph_image meta)) as [i|] eqn:Hi; [|exact H2].
    apply truthy_not_empty in Hi.
    apply (embeds_trans _ _ _ H2). now apply embeds_upsert.
  - destruct (truthy (openGraph_image meta)) as [i|] eqn:Hi; [|exact H1].
    apply truthy_not_empty in Hi.
    apply (embeds_trans _ _ _ H1). now apply embeds_upsert.
Qed.

Lemma select_description_updateMeta (meta : RouteMeta) (doc : document) :
  no_shared_element doc = true ->
  truthy (description meta) = None ->
  select (updateMeta meta doc) meta_description = select doc meta_description.
Proof.
  intros Hdoc Hd. rewrite updateMeta_steps. unfold apply_truthy. rewrite Hd.
  assert (H1 : no_shared_element
                 match truthy (title meta) with
                 | Some s => set_title s doc
                 | None => doc
                 end = true)
    by now destruct (truthy (title meta)).
  destruct (truthy (openGraph_image meta)) as [i|].
  - rewrite select_upsert_other;
      [now destruct (truthy (title meta)) | discriminate | discriminate
      | reflexivity | now apply no_shared_swap].
  - now destruct (truthy (title meta)).
Qed.

Lemma select_og_image_updateMeta (meta : RouteMeta) (doc : document) :
  no_shared_element doc = true ->
  truthy (openGraph_image meta) = None ->
  select (updateMeta meta doc) meta_og_image = select doc meta_og_image.
Proof.
  intros Hdoc Hi. rewrite updateMeta_steps. unfold apply_truthy. rewrite Hi.
  assert (H1 : no_shared_element
                 match truthy (title meta) with
                 | Some s => set_title s doc
                 | None => doc
                 end = true)
    by now destruct (truthy (title meta)).
  destruct (truthy (description meta)) as [d|].
  - rewrite select_upsert_other;
      [now destruct (truthy (title meta)) | discriminate | discriminate
      | reflexivity | exact H1].
  - now destruct (truthy (title meta)).
Qed.

Lemma content_description_updateMeta (meta : RouteMeta) (doc : document)
    (d : string) :
  no_shared_element doc = true ->
  truthy (description meta) = Some d ->
  content_of (updateMeta meta doc) meta_description = Some d.
Proof.
  intros Hdoc Hd. rewrite updateMeta_steps. unfold apply_truthy. rewrite Hd.
  set (d1 := match truthy (title meta) with
             | Some s => set_title s doc
             | None => doc
             end).
  assert (H1 : no_shared_element d1 = true)
    by (subst d1; now destruct (truthy (title meta))).
  assert (H2 : content_of (upsert meta_description d d1) meta_description
               = Some d)
    by (apply content_of_upsert; [reflexivity|discriminate]).
  destruct (truthy (openGraph_image meta)) as [i|]; [|exact H2].
  unfold content_of in *. rewrite select_upsert_other;
    [exact H2 | discriminate | discriminate | reflexivity|].
  apply no_shared_swap, no_shared_upsert;
    [discriminate | reflexivity | exact H1].
Qed.

Lemma content_og_image_updateMeta (meta : RouteMeta) (doc : document)
    (i : string) :
  truthy (openGraph_image meta) = Some i ->
  content_of (updateMeta meta doc) meta_og_image = Some i.
Proof.
  intros Hi. rewrite updateMeta_steps. unfold apply_truthy. rewrite Hi.
  apply content_of_upsert; [reflexivity|discriminate].
Qed.

End HydratorFacts.

(** * Facts about the scan of the keys *)

Section SelectionFacts.

Variable World : Type.

Lemma matchRoute_keys_throw path (before after : list string) route e :
  (forall r, In r before -> RegExp_test (route_pattern r) path = Normal false) ->
  RegExp_test (route_pattern route) path = Throw e ->
  matchRoute_keys path (before ++ route :: after) = Throw e.
Proof.
  intros Hbefore Hroute. induction before as [|r before IH]; cbn [app].
  - cbn [matchRoute_keys]. now rewrite Hroute.
  - cbn [matchRoute_keys]. rewrite (Hbefore r) by now left. cbn [bind].
    apply IH. intros r' Hr'. apply Hbefore. now right.
Qed.

Lemma matchRoute_keys_same (path1 path2 : string) (keys : list string) :
  (forall r, In r keys ->
     RegExp_test (route_pattern r) path1 = RegExp_test (route_pattern r) path2) ->
  matchRoute_keys path1 keys = matchRoute_keys path2 keys.
Proof.
  induction keys as [|r keys IH]; intros H; [reflexivity|].
  cbn [matchRoute_keys]. rewrite (H r) by now left.
  destruct (RegExp_test (route_pattern r) path2) as [[|]| |];
    cbn [bind]; try reflexivity.
  apply IH. intros r' Hr'. apply H. now right.
Qed.

(* A failure of the scan is the failure of the constructor on one key. *)
Lemma matchRoute_keys_fails path (keys : list string) :
  match matchRoute_keys path keys with
  | Normal _ => True
  | failure =>
      exists r, In r keys
                /\ RegExp_new (route_pattern r)
                   = match failure with
                     | Throw e => Throw e
                     | _ => Unmodelled
                     end
  end.
Proof.
  induction keys as [|r keys IH]; [exact I|]. cbn [matchRoute_keys].
  unfold RegExp_test at 1.
  destruct (RegExp_new (route_pattern r)) as [re| e |] eqn:Hnew; cbn [bind].
  - destruct (test re path); [exact I|].
    destruct (matchRoute_keys path keys) as [k| e |]; [exact I| |];
      destruct IH as (r' & Hin & Hr'); exists r'; (split; [now right|exact Hr']).
  - exists r. split; [now left|exact Hnew].
  - exists r. split; [now left|exact Hnew].
Qed.

Lemma get_property_key {A : Type} (o : Record_ A) (k : string) :
  In k (Object_keys o) -> exists v, get_property o k = Some v.
Proof.
  induction o as [|[k' v] o IH]; [intros []|]. cbn [Object_keys map fst In].
  intros H. cbn [get_property]. destruct (String.eqb_spec k' k) as [->|Hne].
  - now exists v.
  - destruct H as [H|H]; [congruence|]. now apply IH.
Qed.

(* The place of a key that comes before another one. *)
Lemma In_before (kb krest b a : list string) (r1 r2 : string) :
  kb ++ r1 :: krest = b ++ r2 :: a ->
  ~ In r2 kb -> r1 <> r2 -> In r1 b.
Proof.
  revert b. induction kb as [|k kb IH]; intros b Heq Hnot Hne.
  - destruct b as [|x b]; cbn [app] in Heq; injection Heq as H1 H2.
    + congruence.
    + now left.
  - destruct b as [|x b]; cbn [app] in Heq; injection Heq as H1 H2.
    + subst k. exfalso. apply Hnot. now left.
    + right. apply (IH b H2); [|exact Hne].
      intros Hin. apply Hnot. now right.
Qed.

End SelectionFacts.

(** * The claims *)

Import RegExpFacts RouteFacts HydratorFacts.




(** C2, at the input where the code departs from it.  The route with the
    empty key matches the empty path, and the shallow merge of the
    defaults and the route's record has the route's title; resolveMetadata
    returns the defaults instead, because the empty key is falsy in
    [if (!routeKey)]. *)
Theorem C2_empty_key_route_not_merged :
  RegExp_test (route_pattern "") "" = Normal true
  /\ matchRoute "" empty_key_config = Normal (Some "")
  /\ spread (defaults empty_key_config) (Some (titled_meta "Empty"))
     = titled_meta "Empty"
  /\ resolveMetadata empty_key_config "" None tt
     = (Normal (titled_meta "Site"), tt).
Proof. repeat split. Qed.

(** C3, as stated, fails: on a path that no pattern matches,
    resolveMetadata rejects, and does not return the defaults, when the
    pattern of one of the keys is not a regular expression. *)
Lemma C3_counterexample :
  ~ (forall (World : Type) (config : MetadataConfig World) (path : string),
       (forall r, In r (Object_keys (routes config)) ->
          RegExp_test (route_pattern r) path <> Normal true) ->
       forall (ps : option (Record_ string)) (w : World),
         resolveMetadata config path ps w
         = (Normal (match defaults config with
                    | Some d => d
                    | None => empty_meta
                    end), w)).
Proof.
  intros H. specialize (H unit star_config "/pricing").
  assert (Hnone : forall r, In r (Object_keys (routes star_config)) ->
                            RegExp_test (route_pattern r) "/pricing"
                            <> Normal true).
  { intros r [<-|[<-|[]]]; discriminate. }
  specialize (H Hnone None tt). discriminate H.
Qed.

(** C3, amended.  For every configuration and every path on which the
    pattern of every key is a regular expression and tests false,
    resolveMetadata returns exactly [config.defaults], or the empty record
    when there are no defaults, whatever the params argument is. *)
Theorem C3_unmatched_path_returns_defaults :
  forall (World : Type) (config : MetadataConfig World) (path : string),
    (forall r, In r (Object_keys (routes config)) ->
       RegExp_test (route_pattern r) path = Normal false) ->
    forall (ps ps' : option (Record_ string)) (w : World),
      resolveMetadata config path ps w
      = (Normal (match defaults config with
                 | Some d => d
                 | None => empty_meta
                 end), w)
      /\ resolveMetadata config path ps w = resolveMetadata config path ps' w.
Proof.
  intros World config path Hnone ps ps' w.
  assert (Hm : matchRoute path config = Normal None)
    by now apply matchRoute_keys_none.
  now rewrite !(resolveMetadata_unmatched _ _ _ _ _ Hm).
Qed.

Lemma C3_witness :
  resolveMetadata site_about "/missing" None tt
  = (Normal (titled_meta "Site"), tt)
  /\ resolveMetadata site_about "/missing" None tt
     = resolveMetadata site_about "/missing" (Some [("name", "alice")]) tt.
Proof.
  refine (C3_unmatched_path_returns_defaults unit site_about "/missing" _
            None (Some [("name", "alice")]) tt).
  intros r [<-|[]]. reflexivity.
Defined.

(** C4, at the input where the code departs from it.  A resolver stored
    under the empty key is the value of the route that matches the empty
    path, and it is never invoked: whatever the function is, the result is
    the empty record and the world is as it was. *)
Theorem C4_empty_key_resolver_not_invoked :
  forall (f : MetadataResolver nat) (ps : option (Record_ string)) (w : nat),
    let config := {| defaults := None; routes := [("", Dynamic f)] |} in
    matchRoute "" config = Normal (Some "")
    /\ get_property (routes config) "" = Some (Dynamic f)
    /\ resolveMetadata config "" ps w = (Normal empty_meta, w).
Proof. intros f ps w config. repeat split. Qed.

(** C5, as stated, fails: on a path that no pattern matches,
    resolveMetadata does raise an error when the pattern of one of the
    keys is not a regular expression. *)
Lemma C5_counterexample :
  ~ (forall (World : Type) (config : MetadataConfig World) (path : string)
            (ps : option (Record_ string)) (w : World),
       (forall r, In r (Object_keys (routes config)) ->
          RegExp_test (route_pattern r) path <> Normal true) ->
       exists m, resolveMetadata config path ps w = (Normal m, w)).
Proof.
  intros H. specialize (H unit star_config "/pricing" None tt).
  assert (Hnone : forall r, In r (Object_keys (routes star_config)) ->
                            RegExp_test (route_pattern r) "/pricing"
                            <> Normal true).
  { intros r [<-|[<-|[]]]; discriminate. }
  destruct (H Hnone) as [m Hm]. discriminate Hm.
Qed.

(** C5, amended.  resolveMetadata raises no error for an unmatched path
    when the pattern of every key is a regular expression: when every
    pattern tests false it returns a record.  It installs no recovery for
    an error: when a key that is reached has a pattern the constructor
    rejects, the promise is rejected with the constructor's error; and
    when the route it selected is a function and the call throws, or
    returns a promise that rejects, the promise it returns is rejected
    with that same error, after that one call, with no fallback to the
    defaults. *)
Theorem C5_no_error_unmatched_no_recovery :
  forall (World : Type) (config : MetadataConfig World) (path : string)
         (ps : option (Record_ string)) (w : World),
    ((forall r, In r (Object_keys (routes config)) ->
        RegExp_test (route_pattern r) path = Normal false) ->
     exists m, resolveMetadata config path ps w = (Normal m, w))
    /\ (forall route f r w' e,
          matchRoute path config = Normal (Some route) ->
          route <> "" ->
          get_property (routes config) route = Some (Dynamic f) ->
          f {| params := match ps with Some p => p | None => [] end;
               query := None |} w = (r, w') ->
          r = Raises e \/ r = ReturnsPromise (Rejected e) ->
          resolveMetadata config path ps w = (Throw e, w'))
    /\ (forall before after route entry e,
          routes config = before ++ (route, entry) :: after ->
          (forall r, In r (Object_keys before) ->
             RegExp_test (route_pattern r) path = Normal false) ->
          RegExp_test (route_pattern route) path = Throw e ->
          resolveMetadata config path ps w = (Throw e, w)).
Proof.
  intros World config path ps w. split; [|split].
  - intros Hnone. eexists. apply resolveMetadata_unmatched.
    now apply matchRoute_keys_none.
  - intros route f r w' e Hm Hne Hget Hcall Hfail.
    rewrite (resolveMetadata_matched _ _ _ _ _ _ _ Hm Hne Hget).
    cbn [resolved_entry]. rewrite Hcall. cbn [fst snd].
    now destruct Hfail as [-> | ->].
  - intros before after route entry e Hroutes Hbefore Hroute.
    unfold resolveMetadata, matchRoute.
    rewrite Hroutes, Object_keys_app. cbn [Object_keys map fst].
    now rewrite (matchRoute_keys_throw path _ _ route e Hbefore Hroute).
Qed.

Lemma C5_witness :
  (exists m, resolveMetadata site_about "/missing" None tt = (Normal m, tt))
  /\ resolveMetadata (failing_config (Raises (UserError "down")))
       "/user/alice" None 0
     = (Throw (UserError "down"), 1)
  /\ resolveMetadata
       (failing_config (ReturnsPromise (Rejected (UserError "down"))))
       "/user/alice" None 0
     = (Throw (UserError "down"), 1)
  /\ resolveMetadata star_config "/pricing" None tt = (Throw SyntaxError, tt).
Proof.
  split; [|split; [|split]].
  - refine (proj1 (C5_no_error_unmatched_no_recovery unit site_about
                     "/missing" None tt) _).
    intros r [<-|[]]. reflexivity.
  - refine (proj1 (proj2 (C5_no_error_unmatched_no_recovery nat
                     (failing_config (Raises (UserError "down")))
                     "/user/alice" None 0))
              "/user/:name" (failing_resolver (Raises (UserError "down")))
              (Raises (UserError "down")) 1 (UserError "down")
              eq_refl _ eq_refl eq_refl (or_introl eq_refl)).
    discriminate.
  - refine (proj1 (proj2 (C5_no_error_unmatched_no_recovery nat
                     (failing_config
                        (ReturnsPromise (Rejected (UserError "down"))))
                     "/user/alice" None 0))
              "/user/:name"
              (failing_resolver (ReturnsPromise (Rejected (UserError "down"))))
              (ReturnsPromise (Rejected (UserError "down"))) 1
              (UserError "down")
              eq_refl _ eq_refl eq_refl (or_intror eq_refl)).
    discriminate.
  - refine (proj2 (proj2 (C5_no_error_unmatched_no_recovery unit star_config
                            "/pricing" None tt))
              [("/about", Static (titled_meta "About"))] [] "*"
              (Static (titled_meta "Fallback")) SyntaxError eq_refl _ eq_refl).
    intros r [<-|[]]. reflexivity.
Defined.

(** C6.  For the pattern ['/blog/:slug'] and the path ['/blog/hello-world']:
    the pattern is [^/blog/([^/]+)$], it matches the whole path with its one
    group capturing ['hello-world'], and in every configuration where no
    earlier route matches, resolveMetadata selects that route and invokes
    its resolver, or uses its static value.  What the resolver is given is
    the caller's params (none, when the caller passes none): the captured
    text selects the route and is not passed on. *)
Theorem C6_blog_slug_matches_hello_world :
  forall (World : Type) (config : MetadataConfig World)
         (before after : Record_ (RouteEntry World)) (entry : RouteEntry World)
         (ps : option (Record_ string)) (w : World),
    routes config = before ++ ("/blog/:slug", entry) :: after ->
    (forall r, In r (Object_keys before) ->
       RegExp_test (route_pattern r) "/blog/hello-world" = Normal false) ->
    route_pattern "/blog/:slug" = "^/blog/([^/]+)$"
    /\ (exists re y,
          RegExp_new (route_pattern "/blog/:slug") = Normal re
          /\ exec re "/blog/hello-world" = Some y
          /\ rest y = []
          /\ get_capture 1 (caps y)
             = Some (list_ascii_of_string "hello-world"))
    /\ matchRoute "/blog/hello-world" config = Normal (Some "/blog/:slug")
    /\ resolveMetadata config "/blog/hello-world" ps w
       = resolved_entry config entry ps w
    /\ (forall f, entry = Dynamic f ->
          resolveMetadata config "/blog/hello-world" None w
          = (m <- await (fst (f {| params := []; query := None |} w)) ;;
             Normal (spread (defaults config) (Some m)),
             snd (f {| params := []; query := None |} w))).
Proof.
  intros World config before after entry ps w Hroutes Hbefore.
  assert (Htest : RegExp_test (route_pattern "/blog/:slug") "/blog/hello-world"
                  = Normal true) by reflexivity.
  assert (Hm : matchRoute "/blog/hello-world" config
               = Normal (Some "/blog/:slug")).
  { unfold matchRoute. rewrite Hroutes, Object_keys_app.
    now apply matchRoute_keys_first. }
  split; [reflexivity|]. split.
  { eexists. eexists. split; [reflexivity|]. split; [reflexivity|].
    split; reflexivity. }
  split; [exact Hm|].
  assert (Hget : get_property (routes config) "/blog/:slug" = Some entry).
  { rewrite Hroutes. apply get_property_first. intros Hin.
    apply Hbefore in Hin. congruence. }
  split.
  - apply (resolveMetadata_matched _ _ _ "/blog/:slug");
      [exact Hm|discriminate|exact Hget].
  - intros f ->.
    apply (resolveMetadata_matched _ _ _ "/blog/:slug" (Dynamic f));
      [exact Hm|discriminate|exact Hget].
Qed.

Lemma C6_witness :
  matchRoute "/blog/hello-world" blog_config = Normal (Some "/blog/:slug")
  /\ resolveMetadata blog_config "/blog/hello-world"
       (Some [("slug", "hello-world")]) 0
     = (Normal (titled_meta "hello-world"), 1).
Proof.
  pose proof (C6_blog_slug_matches_hello_world nat blog_config
                [("/about", Static (titled_meta "About"))] []
                (Dynamic echo_slug) (Some [("slug", "hello-world")]) 0
                eq_refl) as H.
  assert (Hbefore : forall r,
             In r (Object_keys [("/about", Static (World := nat)
                                             (titled_meta "About"))]) ->
             RegExp_test (route_pattern r) "/blog/hello-world" = Normal false).
  { intros r [<-|[]]. reflexivity. }
  destruct (H Hbefore) as (_ & _ & Hm & Hr & _). split; [exact Hm|exact Hr].
Defined.

(** C7.  resolveMetadata is deterministic: when every resolver of the
    configuration is pure (what it returns does not depend on the state of
    the world), two calls with the same configuration, path and params give
    the same result, in whatever states of the world they are made. *)
Theorem C7_deterministic :
  forall (World : Type) (config : MetadataConfig World) (path : string)
         (ps : option (Record_ string)) (w1 w2 : World),
    pure_config config ->
    fst (resolveMetadata config path ps w1)
    = fst (resolveMetadata config path ps w2).
Proof.
  intros World config path ps w1 w2 Hpure. unfold resolveMetadata.
  destruct (matchRoute path config) as [routeKey| |]; try reflexivity.
  destruct (falsy routeKey); [reflexivity|].
  destruct routeKey as [k|]; [|reflexivity].
  destruct (get_property (routes config) k) as [[m|f]|] eqn:Hget;
    try reflexivity.
  apply get_property_In in Hget. apply Hpure in Hget.
  set (ctx := {| params := _; query := None |}).
  specialize (Hget ctx w1 w2).
  destruct (f ctx w1) as [r1 w1'], (f ctx w2) as [r2 w2'].
  cbn [fst] in *. now subst r2.
Qed.

Lemma C7_witness :
  fst (resolveMetadata blog_config "/blog/hello-world"
         (Some [("slug", "hello-world")]) 0)
  = fst (resolveMetadata blog_config "/blog/hello-world"
           (Some [("slug", "hello-world")]) 7).
Proof.
  refine (C7_deterministic nat blog_config "/blog/hello-world"
            (Some [("slug", "hello-world")]) 0 7 _).
  intros route f [H|[H|[]]]; [discriminate|].
  injection H as _ <-. intros ctx w1 w2. reflexivity.
Defined.

(** C8, as stated, fails: a response whose title is present and empty
    does not set the document title. *)
Lemma C8_counterexample :
  ~ (forall (meta : RouteMeta) (doc : document) (t : string),
       title meta = Some t -> doc_title (updateMeta meta doc) = t).
Proof.
  intros H. specialize (H (titled_meta "") old_page "" eq_refl).
  discriminate.
Qed.

(** C8, amended.  On each fetched response the hydrator applies exactly
    three conditional patches and nothing else: it sets the document title
    if [title] is present and not empty; if [description] is present and
    not empty it creates a [meta name="description"] element, at the end of
    head, when the document has none, and sets its content; if
    [openGraph.image] is present and not empty it does the same for
    [meta property="og:image"].  The result depends on no other field of
    the response: twitter and jsonLd are never applied. *)
Theorem C8_three_conditional_patches :
  forall (meta : RouteMeta) (doc : document),
    (forall (fetch_json : string -> completion RouteMeta) (pathname : string),
        fetch_json ("/api/metadata?path=" ++ pathname)%string = Normal meta ->
        MetadataHydrator fetch_json pathname doc = updateMeta meta doc)
    /\ (exists d1 d2 : document,
          match truthy (title meta) with
          | Some t => d1 = set_title t doc
          | None => d1 = doc
          end
          /\ match truthy (description meta) with
             | Some d =>
                 upserted meta_description d d1 d2
                 /\ content_of d2 meta_description = Some d
             | None => d2 = d1
             end
          /\ match truthy (openGraph_image meta) with
             | Some img =>
                 upserted meta_og_image img d2 (updateMeta meta doc)
                 /\ content_of (updateMeta meta doc) meta_og_image = Some img
             | None => updateMeta meta doc = d2
             end)
    /\ (forall meta' : RouteMeta,
          title meta' = title meta ->
          description meta' = description meta ->
          openGraph_image meta' = openGraph_image meta ->
          updateMeta meta' doc = updateMeta meta doc).
Proof.
  intros meta doc. split; [|split].
  - intros fetch_json pathname Hfetch. unfold MetadataHydrator. now rewrite Hfetch.
  - exists (apply_truthy (title meta) set_title doc).
    exists (apply_truthy (description meta) (upsert meta_description)
              (apply_truthy (title meta) set_title doc)).
    rewrite updateMeta_steps. unfold apply_truthy.
    split; [now destruct (truthy (title meta))|]. split.
    + destruct (truthy (description meta)); [|reflexivity]. split.
      * apply upsert_upserted. discriminate.
      * apply content_of_upsert; [reflexivity|discriminate].
    + destruct (truthy (openGraph_image meta)); [|reflexivity]. split.
      * apply upsert_upserted. discriminate.
      * apply content_of_upsert; [reflexivity|discriminate].
  - intros meta' Ht Hd Hi. rewrite !updateMeta_steps. now rewrite Ht, Hd, Hi.
Qed.

Lemma C8_witness :
  MetadataHydrator two_routes "/post" old_page = updateMeta full_meta old_page
  /\ updateMeta full_meta old_page = updateMeta applied_meta old_page.
Proof.
  split.
  - exact (proj1 (C8_three_conditional_patches full_meta old_page)
             two_routes "/post" eq_refl).
  - exact (proj2 (proj2 (C8_three_conditional_patches applied_meta old_page))
             full_meta eq_refl eq_refl eq_refl).
Defined.

(** C9, as stated, fails: the pattern of ['/file:id'] does not match
    ['/docs/file1'], whose last segment is ['file1']; and a colon with
    nothing after it in its segment stays a colon. *)
Lemma C9_counterexample :
  ~ (forall (path : string) (c : ascii) (s : string),
       last_segment path = ("file" ++ String c s)%string ->
       RegExp_test (route_pattern "/file:id") path = Normal true)
  /\ route_pattern "/a:" = "^/a:$".
Proof.
  split; [|reflexivity]. intros H.
  specialize (H "/docs/file1" "1"%char "" eq_refl). discriminate.
Qed.

(** C9, amended.  In pattern compilation every colon that is followed by
    at least one character other than a slash is replaced, together with
    all the characters up to the next slash or the end, by the group
    [([^/]+)], wherever it occurs, not only at the start of a segment.  The
    pattern ['/file:id'] compiles to [^/file([^/]+)$] and matches exactly
    the paths made of ['/file'] and one or more characters other than a
    slash. *)
Theorem C9_tokens_anywhere_in_a_segment :
  (forall route,
     route_pattern route = ("^" ++ substitute_tokens route ++ "$")%string)
  /\ (forall pre name post : string,
        colon_free pre = true ->
        name <> "" ->
        slash_free name = true ->
        (post = "" \/ exists post', post = ("/" ++ post')%string) ->
        substitute_tokens (pre ++ ":" ++ name ++ post)
        = (pre ++ "([^/]+)" ++ substitute_tokens post)%string)
  /\ route_pattern "/file:id" = "^/file([^/]+)$"
  /\ (forall path : string,
        RegExp_test (route_pattern "/file:id") path = Normal true
        <-> exists s : string,
              path = ("/file" ++ s)%string /\ s <> "" /\ slash_free s = true).
Proof.
  split; [apply route_pattern_tokens|].
  split; [apply substitute_tokens_token|].
  split; [reflexivity|].
  intros path.
  apply (RegExp_test_literal_wildcard "^/file([^/]+)$"
           (list_ascii_of_string "/file") path eq_refl).
Qed.

Lemma C9_witness :
  substitute_tokens "/file:id/x" = "/file([^/]+)/x"
  /\ RegExp_test (route_pattern "/file:id") "/file42" = Normal true.
Proof.
  split.
  - refine (proj1 (proj2 C9_tokens_anywhere_in_a_segment)
              "/file" "id" "/x" eq_refl _ eq_refl _).
    + discriminate.
    + right. now exists "x".
  - refine (proj2 (proj2 (proj2 (proj2 C9_tokens_anywhere_in_a_segment))
                     "/file42") _).
    exists "42". repeat split. discriminate.
Defined.

(** C10, as stated, fails: when one meta element carries both
    [name="description"] and [property="og:image"], a response that omits
    the description and has an image overwrites the content of the
    description element. *)
Lemma C10_counterexample :
  ~ (forall (meta : RouteMeta) (doc : document),
       description meta = None ->
       select (updateMeta meta doc) meta_description
       = select doc meta_description).
Proof.
  intros H. specialize (H image_only shared_page eq_refl). discriminate.
Qed.

(** C10, amended.  On a document in which no meta element carries both
    [name="description"] and [property="og:image"] (a property the
    hydrator preserves): the hydrator never removes an element or an
    attribute and never writes an empty title or content; when a response
    omits the title, the description or [openGraph.image] (or has it
    empty), the title text, the description element or the og:image
    element is left exactly as it was; so a value applied for a previously
    visited route is still there after a response that lacks the field. *)
Theorem C10_omitted_fields_leave_document_state :
  forall (meta : RouteMeta) (doc : document),
    no_shared_element doc = true ->
    let doc' := updateMeta meta doc in
    (truthy (title meta) = None -> doc_title doc' = doc_title doc)
    /\ (truthy (description meta) = None ->
        select doc' meta_description = select doc meta_description)
    /\ (truthy (openGraph_image meta) = None ->
        select doc' meta_og_image = select doc meta_og_image)
    /\ embeds (elements doc) (elements doc')
    /\ (doc_title doc' = doc_title doc \/ doc_title doc' <> "")
    /\ no_shared_element doc' = true
    /\ (forall next : RouteMeta,
          let after := updateMeta next doc' in
          (forall t, truthy (title meta) = Some t ->
                     truthy (title next) = None -> doc_title after = t)
          /\ (forall d, truthy (description meta) = Some d ->
                        truthy (description next) = None ->
                        content_of after meta_description = Some d)
          /\ (forall i, truthy (openGraph_image meta) = Some i ->
                        truthy (openGraph_image next) = None ->
                        content_of after meta_og_image = Some i)).
Proof.
  intros meta doc Hdoc doc'.
  assert (Hdoc' : no_shared_element doc' = true)
    by now apply no_shared_updateMeta.
  split. { intros Ht. subst doc'. now rewrite doc_title_updateMeta, Ht. }
  split. { now apply select_description_updateMeta. }
  split. { now apply select_og_image_updateMeta. }
  split. { apply embeds_updateMeta. }
  split.
  { subst doc'. rewrite doc_title_updateMeta.
    destruct (truthy (title meta)) as [t|] eqn:Ht; [right|now left].
    now apply truthy_not_empty in Ht. }
  split; [exact Hdoc'|].
  intros next after. split; [|split].
  - intros t Ht Hnext. subst after doc'.
    now rewrite !doc_title_updateMeta, Hnext, Ht.
  - intros d Hd Hnext. subst after. unfold content_of.
    rewrite select_description_updateMeta by assumption.
    now apply content_description_updateMeta.
  - intros i Hi Hnext. subst after. unfold content_of.
    rewrite select_og_image_updateMeta by assumption.
    now apply content_og_image_updateMeta.
Qed.

Lemma C10_witness :
  no_shared_element old_page = true
  /\ content_of (MetadataHydrator two_routes "/next" (MetadataHydrator two_routes "/post" old_page))
       meta_description
     = Some "About the post".
Proof.
  split; [reflexivity|].
  pose proof (C10_omitted_fields_leave_document_state full_meta old_page
                eq_refl) as (_ & _ & _ & _ & _ & _ & H).
  exact (proj1 (proj2 (H (titled_meta "Next")))
           "About the post" eq_refl eq_refl).
Defined.

(** * Further facts about route patterns *)

Module PathFacts.

Import RegExpFacts RouteFacts.

(** *** Slashes *)

Lemma count_char_skip_while (s : chars) :
  count_char "/" (skip_while non_slash s) = count_char "/" s.
Proof.
  induction s as [|a s IH]; [reflexivity|]. cbn [skip_while].
  destruct (non_slash a) eqn:Ha; [|reflexivity].
  cbn [count_char]. unfold non_slash in Ha. apply negb_true_iff in Ha.
  now rewrite Ha, IH.
Qed.

Lemma pieces_of_slashes (b : bool) (s : chars) :
  count_lit "/" (pieces_of b s) = count_char "/" s.
Proof.
  revert b. induction s as [|a s IH]; intros b; [reflexivity|].
  cbn [pieces_of count_char]. destruct b.
  - destruct (non_slash a) eqn:Ha; unfold non_slash in Ha.
    + apply negb_true_iff in Ha. now rewrite Ha, IH.
    + cbn [count_lit]. now rewrite IH.
  - destruct ((a =? ":")%char && starts_with non_slash s) eqn:Htok.
    + apply andb_true_iff in Htok as [Ha _]. apply Ascii.eqb_eq in Ha.
      subst a. cbn [count_lit]. now rewrite IH.
    + cbn [count_lit]. now rewrite IH.
Qed.

Lemma pieces_match_slashes (ps : list piece) :
  forall s : chars,
    pieces_match ps s = true -> count_char "/" s = count_lit "/" ps.
Proof.
  induction ps as [|[a|] ps IH]; intros s H.
  - now destruct s.
  - destruct s as [|b s]; [discriminate|]. cbn [pieces_match] in H.
    apply andb_true_iff in H as [Hb H]. apply Ascii.eqb_eq in Hb. subst b.
    cbn [count_char count_lit]. now rewrite (IH _ H).
  - cbn [pieces_match] in H. apply andb_true_iff in H as [_ H].
    cbn [count_lit]. rewrite <- (IH _ H). now rewrite count_char_skip_while.
Qed.

(** *** Keys without tokens *)

Lemma ordinary_plain (a : ascii) :
  ordinary a = true -> is_syntax_char a = false /\ (a =? ":")%char = false.
Proof.
  unfold ordinary. intros H. apply andb_true_iff in H as [H1 H2].
  split; now apply negb_true_iff.
Qed.

Lemma pieces_of_literal (s : chars) :
  forallb ordinary s = true -> pieces_of false s = map Lit s.
Proof.
  induction s as [|a s IH]; intros H; [reflexivity|].
  cbn [forallb] in H. apply andb_true_iff in H as [Ha Hs].
  apply ordinary_plain in Ha as [_ Ha].
  cbn [pieces_of map]. rewrite Ha. cbn [andb]. now rewrite IH.
Qed.

Lemma plain_literal (s : chars) :
  forallb ordinary s = true -> forallb plain_piece (map Lit s) = true.
Proof.
  induction s as [|a s IH]; intros H; [reflexivity|].
  cbn [forallb] in H. apply andb_true_iff in H as [Ha Hs].
  apply ordinary_plain in Ha as [Ha _].
  cbn [map forallb plain_piece]. now rewrite Ha, IH.
Qed.

Lemma literal_key_plain (route : string) :
  literal_key route = true -> plain_route route = true.
Proof.
  intros H. unfold plain_route. rewrite pieces_of_literal by exact H.
  now apply plain_literal.
Qed.

Lemma pieces_match_literal (route path : string) :
  pieces_match (map Lit (list_ascii_of_string route))
    (list_ascii_of_string path)
  = (path =? route)%string.
Proof.
  revert path. induction route as [|a route IH]; intros [|b path];
    try reflexivity.
  cbn [list_ascii_of_string map pieces_match String.eqb].
  rewrite IH. now destruct (b =? a)%char.
Qed.

Lemma route_matches_literal (route path : string) :
  literal_key route = true ->
  route_matches route path = (path =? route)%string.
Proof.
  intros H. unfold route_matches. rewrite pieces_of_literal by exact H.
  apply pieces_match_literal.
Qed.

(** *** Values in the place of the tokens *)

Lemma skip_while_app_stop (p : ascii -> bool) (l rest : chars) :
  forallb p l = true ->
  starts_with p rest = false ->
  skip_while p (l ++ rest) = rest.
Proof.
  intros Hl Hrest. induction l as [|a l IH]; cbn [app].
  - destruct rest as [|b rest]; [reflexivity|]. cbn [starts_with] in Hrest.
    cbn [skip_while]. now rewrite Hrest.
  - cbn [forallb] in Hl. apply andb_true_iff in Hl as [Ha Hl].
    cbn [skip_while]. rewrite Ha. now apply IH.
Qed.

Lemma skip_while_split (p : ascii -> bool) (s : chars) :
  exists run : chars,
    s = run ++ skip_while p s
    /\ forallb p run = true
    /\ (starts_with p s = true -> run <> []).
Proof.
  induction s as [|a s (run & Hs & Hrun & _)].
  - exists []. repeat split; discriminate.
  - cbn [skip_while starts_with]. destruct (p a) eqn:Ha.
    + exists (a :: run). cbn [app forallb]. rewrite Ha, Hrun.
      repeat split; [now f_equal | discriminate].
    + exists []. repeat split. discriminate.
Qed.

Lemma segment_value_chars (v : string) :
  segment_value v = true ->
  starts_with non_slash (list_ascii_of_string v) = true
  /\ forallb non_slash (list_ascii_of_string v) = true.
Proof.
  unfold segment_value, slash_free. intros H.
  apply andb_true_iff in H as [Hne Hall]. split; [|exact Hall].
  destruct v as [|a v]; [discriminate|].
  cbn [list_ascii_of_string forallb starts_with] in *.
  now apply andb_true_iff in Hall as [Ha _].
Qed.

(* What comes after a wildcard starts with a slash, or is empty. *)
Lemma fill_after_wild (ps : list piece) (values : list string) :
  well_formed (Wild :: ps) = true ->
  starts_with non_slash (fill ps values) = false.
Proof.
  cbn [well_formed]. destruct ps as [|[a|] ps]; [reflexivity| |discriminate].
  intros H. apply andb_true_iff in H as [Ha _]. apply Ascii.eqb_eq in Ha.
  now subst a.
Qed.

Lemma well_formed_tail (p : piece) (ps : list piece) :
  well_formed (p :: ps) = true -> well_formed ps = true.
Proof.
  destruct p as [a|]; [trivial|]. cbn [well_formed].
  destruct ps as [|[a|] ps]; [reflexivity| |discriminate].
  intros H. now apply andb_true_iff in H as [_ H].
Qed.

Lemma fill_matches (ps : list piece) :
  well_formed ps = true ->
  forall values : list string,
    length values = count_wild ps ->
    forallb segment_value values = true ->
    pieces_match ps (fill ps values) = true.
Proof.
  induction ps as [|[a|] ps IH]; intros Hwf values Hlen Hvals.
  - reflexivity.
  - cbn [fill pieces_match]. rewrite Ascii.eqb_refl. cbn [andb].
    apply IH; [exact Hwf | exact Hlen | exact Hvals].
  - destruct values as [|v values]; [discriminate|].
    cbn [forallb] in Hvals. apply andb_true_iff in Hvals as [Hv Hvals].
    apply segment_value_chars in Hv as [Hstart Hall].
    cbn [fill pieces_match].
    rewrite skip_while_app_stop
      by (auto using fill_after_wild).
    apply andb_true_iff. split.
    + destruct (list_ascii_of_string v); [discriminate|exact Hstart].
    + apply IH; [now apply well_formed_tail in Hwf | | exact Hvals].
      cbn [length count_wild] in Hlen. now injection Hlen.
Qed.

Lemma matches_fill (ps : list piece) :
  forall s : chars,
    pieces_match ps s = true ->
    exists values : list string,
      length values = count_wild ps
      /\ forallb segment_value values = true
      /\ s = fill ps values.
Proof.
  induction ps as [|[a|] ps IH]; intros s H.
  - destruct s; [|discriminate]. now exists [].
  - destruct s as [|b s]; [discriminate|]. cbn [pieces_match] in H.
    apply andb_true_iff in H as [Hb H]. apply Ascii.eqb_eq in Hb. subst b.
    destruct (IH _ H) as (values & Hlen & Hvals & Hs).
    exists values. cbn [count_wild fill]. now rewrite <- Hs.
  - cbn [pieces_match] in H. apply andb_true_iff in H as [Hstart H].
    destruct (IH _ H) as (values & Hlen & Hvals & Hs).
    destruct (skip_while_split non_slash s) as (run & Hrun & Hall & Hne).
    exists (string_of_list_ascii run :: values).
    cbn [length count_wild forallb fill]. rewrite Hlen, Hvals.
    rewrite list_ascii_of_string_of_list_ascii, <- Hs.
    repeat split; [|exact Hrun].
    rewrite andb_true_r. unfold segment_value, slash_free.
    rewrite list_ascii_of_string_of_list_ascii, Hall, andb_true_r.
    specialize (Hne Hstart). destruct run; [congruence|reflexivity].
Qed.

End PathFacts.

(** * Facts about keys with pattern syntax *)

Module SyntaxFacts.

Import RegExpFacts RouteFacts PathFacts.

Lemma string_app_assoc (s t u : string) :
  ((s ++ t) ++ u)%string = (s ++ (t ++ u))%string.
Proof.
  induction s as [|a s IH]; cbn [String.append]; [reflexivity|now rewrite IH].
Qed.

(* The pattern of a key without a colon is the key between the anchors. *)
Lemma route_pattern_colon_free (route : string) :
  colon_free route = true ->
  route_pattern route = ("^" ++ route ++ "$")%string.
Proof.
  intros H. rewrite route_pattern_tokens. unfold substitute_tokens.
  rewrite <- (app_nil_r (list_ascii_of_string route)).
  rewrite wildcard_tokens_colon_free by exact H.
  cbn [wildcard_tokens]. rewrite app_nil_r.
  now rewrite string_of_list_ascii_of_string.
Qed.

Lemma ordinary_head_ok (a : ascii) (tl : chars) :
  ordinary a || (a =? ".")%char = true -> head_ok (a :: tl) = true.
Proof.
  destruct a as [[] [] [] [] [] [] [] []]; intros H;
    try reflexivity; discriminate H.
Qed.

Lemma ordinary_not_bar (a : ascii) :
  ordinary a || (a =? ".")%char = true ->
  existsb (Ascii.eqb a) (list_ascii_of_string "|)") = false.
Proof.
  destruct a as [[] [] [] [] [] [] [] []]; intros H;
    try reflexivity; discriminate H.
Qed.

Lemma parse_term_dotted (f : nat) (a : ascii) (tl : chars) (n : nat) :
  ordinary a || (a =? ".")%char = true ->
  parse_term (S f) (a :: tl) n
  = ('(q, s2) <- parse_quantifier
                   (if (a =? ".")%char then RDot else RChar a) tl ;;
     Normal (q, s2, n)).
Proof.
  destruct a as [[] [] [] [] [] [] [] []]; intros H;
    try reflexivity; discriminate H.
Qed.

Lemma head_ok_dotted (r : chars) :
  forallb (fun a => ordinary a || (a =? ".")%char) r = true ->
  head_ok (r ++ ["$"%char]) = true.
Proof.
  destruct r as [|a r]; [reflexivity|]. cbn [forallb app]. intros H.
  apply andb_true_iff in H as [Ha _]. now apply ordinary_head_ok.
Qed.

Lemma parse_alternative_dotted (r : chars) :
  forallb (fun a => ordinary a || (a =? ".")%char) r = true ->
  forall (n fuel : nat),
    length r + 3 <= fuel ->
    parse_alternative fuel (r ++ ["$"%char]) n = Normal (dot_compile r, [], n).
Proof.
  induction r as [|a r IH]; intros Hr n fuel Hfuel.
  - do 3 (destruct fuel as [|fuel]; [simpl in Hfuel; lia|]). reflexivity.
  - cbn [forallb] in Hr. apply andb_true_iff in Hr as [Ha Hr].
    do 2 (destruct fuel as [|fuel]; [simpl in Hfuel; lia|]).
    cbn [app]. rewrite parse_alternative_step by now apply ordinary_not_bar.
    rewrite parse_term_dotted by exact Ha.
    rewrite parse_quantifier_head_ok by now apply head_ok_dotted.
    cbn [bind]. rewrite IH by (auto; simpl in Hfuel; lia).
    reflexivity.
Qed.

Lemma RegExp_new_anchored (s : chars) (r : regex) :
  (forall fuel, length s + 3 <= fuel ->
     parse_alternative fuel s 0 = Normal (r, [], 0)) ->
  RegExp_new (string_of_list_ascii ("^"%char :: s)) = Normal (RSeq RBol r).
Proof.
  intros H. unfold RegExp_new. rewrite list_ascii_of_string_of_list_ascii.
  cbn [length].
  replace (3 * S (length s) + 3) with (S (S (S (length s * 3 + 3)))) by lia.
  cbn [parse_disjunction]. rewrite parse_alternative_step by reflexivity.
  cbn [parse_term bind]. rewrite H by lia. reflexivity.
Qed.

Lemma matcher_dot_compile (input r : chars) :
  forall (s : chars) (cs : captures),
    is_some (matcher input (dot_compile r) (MState s cs) (fun y => Some y))
    = dot_match r s.
Proof.
  induction r as [|a r IH]; intros s cs.
  - now destruct s.
  - cbn [dot_compile matcher dot_match].
    destruct s as [|b s]; [now destruct (a =? ".")%char|].
    destruct (a =? ".")%char; cbn [matcher]; unfold one_char; cbn [rest caps].
    + destruct (negb (is_line_terminator b)); [apply IH|reflexivity].
    + destruct (b =? a)%char; [apply IH|reflexivity].
Qed.

Lemma dotted_colon_free (route : string) :
  dotted route = true -> colon_free route = true.
Proof.
  unfold dotted, colon_free. induction (list_ascii_of_string route) as [|a l IH];
    [reflexivity|].
  cbn [forallb]. intros H. apply andb_true_iff in H as [Ha Hl].
  rewrite (IH Hl), andb_true_r.
  destruct a as [[] [] [] [] [] [] [] []]; try reflexivity; discriminate Ha.
Qed.

Lemma dotted_route_pattern (route path : string) :
  dotted route = true ->
  RegExp_test (route_pattern route) path
  = Normal (dot_match (list_ascii_of_string route) (list_ascii_of_string path)).
Proof.
  intros H. rewrite route_pattern_colon_free by now apply dotted_colon_free.
  unfold RegExp_test.
  assert (Hpat : ("^" ++ route ++ "$")%string
                 = string_of_list_ascii
                     ("^"%char :: (list_ascii_of_string route ++ ["$"%char]))).
  { cbn [string_of_list_ascii String.append].
    rewrite string_of_list_ascii_app, string_of_list_ascii_of_string.
    reflexivity. }
  rewrite Hpat, (RegExp_new_anchored _ (dot_compile (list_ascii_of_string route))).
  - cbn [bind]. f_equal. rewrite test_bol.
    rewrite <- (matcher_dot_compile (list_ascii_of_string path) _
                  (list_ascii_of_string path) []).
    now destruct (matcher _ _ _ _).
  - intros fuel Hfuel. apply parse_alternative_dotted; [exact H|].
    rewrite length_app in Hfuel. cbn [length] in Hfuel. lia.
Qed.

(** *** A star at the end of a key *)

Lemma head_ok_ordinary (lit s : chars) :
  forallb ordinary lit = true -> head_ok s = true -> head_ok (lit ++ s) = true.
Proof.
  destruct lit as [|a lit]; [trivial|]. cbn [forallb app]. intros H _.
  apply andb_true_iff in H as [Ha _]. apply ordinary_head_ok.
  now rewrite Ha.
Qed.

(* Ordinary characters are read one by one, before what follows them. *)
Lemma parse_alternative_literal (lit s : chars) :
  forallb ordinary lit = true ->
  head_ok s = true ->
  forall (n fuel : nat),
    parse_alternative (length lit + S fuel) (lit ++ s) n
    = ('(r, s2, n2) <- parse_alternative (S fuel) s n ;;
       Normal (literal lit r, s2, n2)).
Proof.
  intros Hlit Hs n fuel. induction lit as [|a lit IH].
  - cbn [length app literal Nat.add].
    destruct (parse_alternative (S fuel) s n) as [[[r s2] n2]| |]; reflexivity.
  - cbn [forallb] in Hlit. apply andb_true_iff in Hlit as [Ha Hlit].
    cbn [length app Nat.add].
    assert (Ha' : ordinary a || (a =? ".")%char = true) by now rewrite Ha.
    rewrite parse_alternative_step by now apply ordinary_not_bar.
    replace (length lit + S fuel) with (S (length lit + fuel)) by lia.
    rewrite parse_term_dotted by exact Ha'.
    assert (Hdot : (a =? ".")%char = false).
    { destruct a as [[] [] [] [] [] [] [] []]; try reflexivity; discriminate Ha. }
    rewrite Hdot.
    rewrite parse_quantifier_head_ok by now apply head_ok_ordinary.
    cbn [bind].
    replace (S (length lit + fuel)) with (length lit + S fuel) by lia.
    rewrite (IH Hlit).
    destruct (parse_alternative (S fuel) s n) as [[[r s2] n2]| |]; reflexivity.
Qed.

Lemma parse_alternative_star (a : ascii) (n fuel : nat) :
  ordinary a = true ->
  parse_alternative (S (S (S (S fuel)))) [a; "*"%char; "$"%char] n
  = Normal (RSeq (RQuant 0 None true (RChar a)) (RSeq REol REmpty), [], n).
Proof.
  intros Ha.
  assert (Ha' : ordinary a || (a =? ".")%char = true) by now rewrite Ha.
  rewrite parse_alternative_step by now apply ordinary_not_bar.
  rewrite parse_term_dotted by exact Ha'.
  assert (Hdot : (a =? ".")%char = false).
  { destruct a as [[] [] [] [] [] [] [] []]; try reflexivity; discriminate Ha. }
  rewrite Hdot. reflexivity.
Qed.

(* The longest run of [a], then the end of the input. *)
Lemma matcher_star_eol (input : chars) (a : ascii) (s : chars) (cs : captures) :
  is_some (matcher input
             (RSeq (RQuant 0 None true (RChar a)) (RSeq REol REmpty))
             (MState s cs) (fun y => Some y))
  = forallb (fun b => (b =? a)%char) s.
Proof.
  cbn [matcher groups_of repeat_matcher rest].
  rewrite repeat_free_greedy_run; [| |lia].
  - destruct (skip_while (fun b => (b =? a)%char) s) eqn:Hskip; cbn [rest].
    + apply skip_while_nil_iff in Hskip. now rewrite Hskip.
    + destruct (forallb (fun b => (b =? a)%char) s) eqn:Hall; [|reflexivity].
      apply skip_while_nil_iff in Hall. congruence.
  - apply run_decides_stop. intros y Hy. destruct (rest y); [discriminate|].
    reflexivity.
Qed.

Lemma forallb_repeat (a : ascii) (s : chars) :
  forallb (fun b => (b =? a)%char) s = true <-> s = repeat a (length s).
Proof.
  induction s as [|b s IH]; [now split|]. cbn [forallb length repeat]. split.
  - intros H. apply andb_true_iff in H as [Hb Hs]. apply Ascii.eqb_eq in Hb.
    subst b. f_equal. now apply IH.
  - intros H. injection H as -> Hs. rewrite Ascii.eqb_refl. now apply IH.
Qed.

Lemma literal_key_app (pre : string) (a : ascii) :
  literal_key pre = true -> ordinary a = true ->
  colon_free (pre ++ String a "*") = true.
Proof.
  unfold literal_key, colon_free. intros Hpre Ha.
  rewrite list_ascii_of_string_app, forallb_app. apply andb_true_iff. split.
  - induction (list_ascii_of_string pre) as [|b l IH]; [reflexivity|].
    cbn [forallb] in *. apply andb_true_iff in Hpre as [Hb Hl].
    apply ordinary_plain in Hb as [_ Hb]. now rewrite Hb, IH.
  - apply ordinary_plain in Ha as [_ Ha]. cbn. now rewrite Ha.
Qed.

Lemma star_route_pattern (pre : string) (a : ascii) (path : string) :
  literal_key pre = true ->
  ordinary a = true ->
  RegExp_test (route_pattern (pre ++ String a "*")) path
  = Normal match strip_prefix (list_ascii_of_string pre)
                   (list_ascii_of_string path) with
           | Some s => forallb (fun b => (b =? a)%char) s
           | None => false
           end.
Proof.
  intros Hpre Ha. rewrite route_pattern_colon_free by now apply literal_key_app.
  unfold RegExp_test.
  assert (Hpat : ("^" ++ (pre ++ String a "*") ++ "$")%string
                 = string_of_list_ascii
                     ("^"%char :: (list_ascii_of_string pre
                                   ++ [a; "*"%char; "$"%char]))).
  { cbn [string_of_list_ascii String.append].
    rewrite string_of_list_ascii_app, string_of_list_ascii_of_string.
    f_equal. now rewrite string_app_assoc. }
  rewrite Hpat.
  rewrite (RegExp_new_anchored _
             (literal (list_ascii_of_string pre)
                (RSeq (RQuant 0 None true (RChar a)) (RSeq REol REmpty)))).
  - cbn [bind]. f_equal. rewrite test_bol, matcher_literal.
    destruct (strip_prefix _ _) as [s|]; [|reflexivity].
    rewrite <- (matcher_star_eol (list_ascii_of_string path) a s []).
    now destruct (matcher _ _ _ _).
  - intros fuel Hfuel. rewrite length_app in Hfuel. cbn [length] in Hfuel.
    replace fuel
      with (length (list_ascii_of_string pre)
            + S (fuel - length (list_ascii_of_string pre) - 1)) by lia.
    rewrite parse_alternative_literal;
      [|exact Hpre|apply ordinary_head_ok; now rewrite Ha].
    replace (S (fuel - length (list_ascii_of_string pre) - 1))
      with (S (S (S (S (fuel - length (list_ascii_of_string pre) - 4)))))
      by lia.
    now rewrite parse_alternative_star.
Qed.

End SyntaxFacts.

(** * Further facts about the hydrator *)

Module PatchFacts.

Import HydratorFacts.

Lemma node_eq_dec (n m : node) : {n = m} + {n <> m}.
Proof. decide equality; apply Nat.eq_dec. Qed.

(** *** Writing an attribute twice, or writing the value it has *)

Lemma set_attribute_twice (attrs : list (string * string))
    (name v v' : string) :
  set_attribute (set_attribute attrs name v') name v
  = set_attribute attrs name v.
Proof.
  induction attrs as [|[k x] attrs IH]; cbn [set_attribute].
  - now rewrite String.eqb_refl.
  - destruct (k =? name)%string eqn:Hk; cbn [set_attribute]; rewrite Hk;
      [reflexivity | now rewrite IH].
Qed.

Lemma set_attribute_same (attrs : list (string * string)) (name v : string) :
  getAttribute attrs name = Some v -> set_attribute attrs name v = attrs.
Proof.
  induction attrs as [|[k x] attrs IH]; [discriminate|].
  cbn [getAttribute set_attribute]. destruct (k =? name)%string.
  - now intros [= ->].
  - intros H. now rewrite IH.
Qed.

Lemma setAttribute_same (e : element) (name v : string) :
  getAttribute (attributes e) name = Some v -> setAttribute e name v = e.
Proof.
  intros H. unfold setAttribute. rewrite set_attribute_same by exact H.
  now destruct e.
Qed.

Lemma update_nth_twice {A : Type} (f g : A -> A) (l : list A) (i : nat) :
  update_nth i f (update_nth i g l) = update_nth i (fun a => f (g a)) l.
Proof.
  revert i. induction l as [|a l IH]; intros [|i]; cbn [update_nth];
    try reflexivity.
  now rewrite IH.
Qed.

Lemma update_nth_ext {A : Type} (f g : A -> A) (l : list A) (i : nat) :
  (forall a, f a = g a) -> update_nth i f l = update_nth i g l.
Proof.
  intros H. revert i. induction l as [|a l IH]; intros [|i]; cbn [update_nth];
    try reflexivity.
  - now rewrite H.
  - now rewrite IH.
Qed.

Lemma update_nth_same {A : Type} (f : A -> A) (l : list A) (i : nat) (a : A) :
  nth_error l i = Some a -> f a = a -> update_nth i f l = l.
Proof.
  revert i. induction l as [|b l IH]; intros [|i] Hnth Hf;
    cbn [nth_error update_nth] in *; try discriminate.
  - injection Hnth as ->. now rewrite Hf.
  - now rewrite (IH i).
Qed.

Lemma nth_error_update_nth {A : Type} (f : A -> A) (l : list A) (i j : nat) :
  nth_error (update_nth i f l) j
  = if i =? j then option_map f (nth_error l j) else nth_error l j.
Proof.
  revert i j. induction l as [|a l IH]; intros [|i] [|j];
    cbn [update_nth nth_error Nat.eqb option_map]; try reflexivity.
  - now destruct (i =? j).
  - apply IH.
Qed.

Lemma length_update_nth {A : Type} (f : A -> A) (l : list A) (i : nat) :
  length (update_nth i f l) = length l.
Proof.
  revert i. induction l as [|a l IH]; intros [|i]; cbn [update_nth length];
    try reflexivity.
  now rewrite IH.
Qed.

Lemma find_index_update_nth {A : Type} (p : A -> bool) (f : A -> A)
    (l : list A) (i : nat) :
  (forall a, p (f a) = p a) ->
  find_index p (update_nth i f l) = find_index p l.
Proof.
  intros H. revert i. induction l as [|a l IH]; intros [|i];
    cbn [update_nth find_index]; try reflexivity.
  - now rewrite H.
  - now rewrite IH.
Qed.

Lemma setAttribute_at_twice (n : node) (name v v' : string) (doc : document) :
  setAttribute_at n name v (setAttribute_at n name v' doc)
  = setAttribute_at n name v doc.
Proof.
  destruct n as [i|i]; unfold setAttribute_at; cbn [doc_title head body];
    rewrite update_nth_twice; f_equal; apply update_nth_ext; intros e;
    unfold setAttribute; cbn [tagName attributes];
    now rewrite set_attribute_twice.
Qed.

Lemma setAttribute_at_same (n : node) (name v : string) (doc : document)
    (e : element) :
  element_at doc n = Some e ->
  getAttribute (attributes e) name = Some v ->
  setAttribute_at n name v doc = doc.
Proof.
  intros He Hv. destruct doc as [t h b], n as [i|i];
    unfold setAttribute_at; cbn [element_at doc_title head body] in *;
    rewrite (update_nth_same _ _ _ e He) by now apply setAttribute_same.
  - reflexivity.
  - reflexivity.
Qed.

Lemma querySelector_setAttribute_at (n : node) (name v : string)
    (doc : document) (sel : selector) :
  sel_attr sel <> name ->
  querySelector (setAttribute_at n name v doc) sel = querySelector doc sel.
Proof.
  intros Hne. destruct n as [i|i]; unfold querySelector, setAttribute_at;
    cbn [head body];
    rewrite find_index_update_nth
      by (intros e; now apply matches_setAttribute); reflexivity.
Qed.

Lemma element_at_setAttribute_at (n m : node) (name v : string)
    (doc : document) :
  element_at (setAttribute_at n name v doc) m
  = if node_eq_dec n m
    then option_map (fun e => setAttribute e name v) (element_at doc m)
    else element_at doc m.
Proof.
  destruct (node_eq_dec n m) as [<-|Hne].
  - destruct n as [i|i]; cbn [setAttribute_at element_at head body];
      rewrite nth_error_update_nth; now rewrite Nat.eqb_refl.
  - destruct n as [i|i], m as [j|j];
      cbn [setAttribute_at element_at head body]; try reflexivity;
      rewrite nth_error_update_nth;
      destruct (Nat.eqb_spec i j) as [->|]; congruence.
Qed.

(** *** One block of [updateMeta] *)

Lemma upsert_found (sel : selector) (content : string) (doc : document)
    (n : node) :
  querySelector doc sel = Some n ->
  upsert sel content doc = setAttribute_at n "content" content doc.
Proof. intros H. unfold upsert. now rewrite H. Qed.

Lemma content_of_found (doc : document) (sel : selector) (c : string) :
  content_of doc sel = Some c ->
  exists n e,
    querySelector doc sel = Some n
    /\ element_at doc n = Some e
    /\ getAttribute (attributes e) "content" = Some c.
Proof.
  unfold content_of, select.
  destruct (querySelector doc sel) as [n|] eqn:Hq; [|discriminate].
  destruct (element_at doc n) as [e|] eqn:He; [|discriminate].
  intros H. exists n, e. repeat split; assumption.
Qed.

(* Writing the content the designated element has changes nothing. *)
Lemma upsert_same (sel : selector) (content : string) (doc : document) :
  content_of doc sel = Some content -> upsert sel content doc = doc.
Proof.
  intros H. destruct (content_of_found _ _ _ H) as (n & e & Hq & He & Hc).
  rewrite (upsert_found _ _ _ _ Hq). now apply setAttribute_at_same with e.
Qed.

Lemma upsert_twice (sel : selector) (content : string) (doc : document) :
  sel_tag sel = "meta" ->
  sel_attr sel <> "content" ->
  upsert sel content (upsert sel content doc) = upsert sel content doc.
Proof. intros Ht Ha. apply upsert_same. now apply content_of_upsert. Qed.

Lemma find_none_forallb {A : Type} (p q : A -> bool) (l : list A) :
  find p l = None -> forallb (fun a => negb (p a && q a)) l = true.
Proof.
  induction l as [|a l IH]; [reflexivity|]. cbn [find forallb].
  destruct (p a); [discriminate|]. intros H. now rewrite IH.
Qed.

Lemma find_index_app_miss {A : Type} (p : A -> bool) (l : list A) (a : A) :
  p a = false -> find_index p (l ++ [a]) = find_index p l.
Proof.
  intros Ha. induction l as [|b l IH]; cbn [app find_index].
  - now rewrite Ha.
  - now rewrite IH.
Qed.

(* A block leaves the place the other selector designates where it is. *)
Lemma querySelector_upsert_other (sel other : selector) (content : string)
    (doc : document) :
  sel_attr sel <> "content" ->
  sel_attr other <> "content" ->
  matches other (new_meta sel content) = false ->
  querySelector (upsert sel content doc) other = querySelector doc other.
Proof.
  intros Hs Ho Hnew.
  destruct (querySelector doc sel) as [n|] eqn:Hq.
  - unfold upsert. rewrite Hq. now apply querySelector_setAttribute_at.
  - rewrite upsert_created_eq by assumption.
    unfold querySelector. cbn [head body].
    now rewrite find_index_app_miss by exact Hnew.
Qed.

(** *** A response applied twice *)

Lemma set_title_same (doc : document) :
  set_title (doc_title doc) doc = doc.
Proof. now destruct doc. Qed.

Lemma upsert_both_twice (d i : string) (doc : document) :
  let once := upsert meta_og_image i (upsert meta_description d doc) in
  upsert meta_og_image i (upsert meta_description d once) = once.
Proof.
  intros once. subst once.
  set (X := upsert meta_description d doc).
  assert (HX : content_of X meta_description = Some d)
    by (apply content_of_upsert; [reflexivity|discriminate]).
  destruct (content_of_found _ _ _ HX) as (n1 & e1 & Hq1 & He1 & Hc1).
  destruct (querySelector X meta_og_image) as [n2|] eqn:Hq2.
  - rewrite (upsert_found meta_og_image i X n2 Hq2).
    set (W := setAttribute_at n2 "content" i X).
    assert (HqW : querySelector W meta_description = Some n1).
    { subst W. rewrite querySelector_setAttribute_at; [exact Hq1|discriminate]. }
    destruct (node_eq_dec n2 n1) as [->|Hne].
    + rewrite (upsert_found meta_description d W n1 HqW). subst W.
      rewrite setAttribute_at_twice.
      rewrite (upsert_found meta_og_image i _ n1).
      * apply setAttribute_at_twice.
      * rewrite querySelector_setAttribute_at; [exact Hq2|discriminate].
    + assert (HW : upsert meta_description d W = W).
      { rewrite (upsert_found meta_description d W n1 HqW).
        apply setAttribute_at_same with e1; [|exact Hc1].
        subst W. rewrite element_at_setAttribute_at.
        now destruct (node_eq_dec n2 n1). }
      rewrite HW. subst W.
      rewrite (upsert_found meta_og_image i _ n2).
      * apply setAttribute_at_twice.
      * rewrite querySelector_setAttribute_at; [exact Hq2|discriminate].
  - set (W := upsert meta_og_image i X).
    assert (HW : content_of W meta_description = Some d).
    { subst W. unfold content_of.
      rewrite select_upsert_other;
        [exact HX | discriminate | discriminate | reflexivity |].
      apply find_none_forallb. now apply querySelector_none. }
    rewrite (upsert_same _ _ _ HW). subst W.
    apply upsert_twice; [reflexivity|discriminate].
Qed.

Lemma apply_truthy_title_upserts (v : option string) (doc : document)
    (f : document -> document) :
  (forall x, doc_title (f x) = doc_title x) ->
  apply_truthy v set_title (f (apply_truthy v set_title doc))
  = f (apply_truthy v set_title doc).
Proof.
  intros Hf. unfold apply_truthy. destruct (truthy v) as [t|]; [|reflexivity].
  rewrite <- (set_title_same (f (set_title t doc))) at 2.
  now rewrite Hf.
Qed.

Lemma updateMeta_twice (meta : RouteMeta) (doc : document) :
  updateMeta meta (updateMeta meta doc) = updateMeta meta doc.
Proof.
  rewrite !updateMeta_steps.
  set (f := fun x => apply_truthy (openGraph_image meta) (upsert meta_og_image)
                       (apply_truthy (description meta)
                          (upsert meta_description) x)).
  change (f (apply_truthy (title meta) set_title
               (f (apply_truthy (title meta) set_title doc)))
          = f (apply_truthy (title meta) set_title doc)).
  rewrite (apply_truthy_title_upserts (title meta) doc f).
  - subst f. cbv beta.
    remember (apply_truthy (title meta) set_title doc) as Y eqn:HY.
    clear HY. unfold apply_truthy.
    destruct (truthy (openGraph_image meta)) as [i|],
             (truthy (description meta)) as [d|].
    + apply upsert_both_twice.
    + apply upsert_twice; [reflexivity|discriminate].
    + apply upsert_twice; [reflexivity|discriminate].
    + reflexivity.
  - intros x. subst f. cbv beta. unfold apply_truthy.
    destruct (truthy (openGraph_image meta)), (truthy (description meta));
      now rewrite ?doc_title_upsert.
Qed.

End PatchFacts.

(** * What a patch leaves alone, and what it adds *)

Module FrameFacts.

Import HydratorFacts PatchFacts.

Lemma same_but_content_refl (e : element) : same_but_content e e.
Proof. split; [reflexivity|]. intros a _. reflexivity. Qed.

Lemma same_but_content_trans (e1 e2 e3 : element) :
  same_but_content e1 e2 -> same_but_content e2 e3 -> same_but_content e1 e3.
Proof.
  intros [Ht1 Ha1] [Ht2 Ha2]. split; [congruence|].
  intros a Ha. now rewrite (Ha2 a Ha), (Ha1 a Ha).
Qed.

Lemma same_but_content_set (e : element) (v : string) :
  same_but_content e (setAttribute e "content" v).
Proof.
  split; [reflexivity|]. intros a Ha. unfold setAttribute. cbn [attributes].
  rewrite getAttribute_set.
  destruct (String.eqb_spec a "content"); [congruence|reflexivity].
Qed.

Lemma patched_refl (doc : document) : patched (fun _ => False) doc doc.
Proof.
  split; [reflexivity|]. intros n e He. exists e.
  split; [exact He|]. split; [apply same_but_content_refl|reflexivity].
Qed.

Lemma patched_weaken (P Q : node -> Prop) (doc doc' : document) :
  (forall n, P n -> Q n) -> patched P doc doc' -> patched Q doc doc'.
Proof.
  intros HPQ [Hb H]. split; [exact Hb|]. intros n e He.
  destruct (H n e He) as (e' & He' & Hs & Hk). exists e'.
  split; [exact He'|]. split; [exact Hs|]. intros Hn. apply Hk.
  intros HP. apply Hn. now apply HPQ.
Qed.

Lemma patched_trans (P Q : node -> Prop) (d0 d1 d2 : document) :
  patched P d0 d1 -> patched Q d1 d2 -> patched (fun n => P n \/ Q n) d0 d2.
Proof.
  intros [Hb1 H1] [Hb2 H2]. split; [congruence|]. intros n e He.
  destruct (H1 n e He) as (e1 & He1 & Hs1 & Hk1).
  destruct (H2 n e1 He1) as (e2 & He2 & Hs2 & Hk2).
  exists e2. split; [exact He2|].
  split; [now apply same_but_content_trans with e1|].
  intros Hn. rewrite Hk2, Hk1; [reflexivity| |]; intros H; apply Hn; tauto.
Qed.

Lemma patched_setAttribute_at (n : node) (v : string) (doc : document) :
  patched (eq n) doc (setAttribute_at n "content" v doc).
Proof.
  split.
  - destruct n as [i|i]; cbn [setAttribute_at body]; [reflexivity|].
    apply length_update_nth.
  - intros m e He. rewrite element_at_setAttribute_at, He.
    destruct (node_eq_dec n m) as [Heq|Hne]; cbn [option_map].
    + exists (setAttribute e "content" v). split; [reflexivity|].
      split; [apply same_but_content_set|]. intros H. now destruct H.
    + exists e. split; [reflexivity|].
      split; [apply same_but_content_refl|reflexivity].
Qed.

Lemma patched_append (e0 : element) (doc : document) :
  patched (fun _ => False) doc
    {| doc_title := doc_title doc;
       head := head doc ++ [e0];
       body := body doc |}.
Proof.
  split; [reflexivity|]. intros n e He. exists e. split.
  - destruct n as [i|i]; cbn [element_at head body] in *; [|exact He].
    rewrite nth_error_app1; [exact He|].
    apply nth_error_Some. congruence.
  - split; [apply same_but_content_refl|reflexivity].
Qed.

Lemma patched_upsert (sel : selector) (content : string) (doc : document) :
  sel_attr sel <> "content" ->
  patched (fun n => querySelector doc sel = Some n) doc
    (upsert sel content doc).
Proof.
  intros Hs. destruct (querySelector doc sel) as [n|] eqn:Hq.
  - rewrite (upsert_found _ _ _ _ Hq).
    apply (patched_weaken (eq n)); [now intros m <-|].
    apply patched_setAttribute_at.
  - rewrite upsert_created_eq by assumption.
    apply (patched_weaken (fun _ => False)); [intros m []|].
    apply patched_append.
Qed.

Lemma patched_set_title (t : string) (doc : document) :
  patched (fun _ => False) doc (set_title t doc).
Proof.
  split; [reflexivity|]. intros n e He. exists e.
  split; [now destruct n|].
  split; [apply same_but_content_refl|reflexivity].
Qed.

Lemma querySelector_set_title (t : string) (doc : document) (sel : selector) :
  querySelector (set_title t doc) sel = querySelector doc sel.
Proof. reflexivity. Qed.

Lemma patched_updateMeta (meta : RouteMeta) (doc : document) :
  patched
    (fun n =>
       (truthy (description meta) <> None
        /\ querySelector doc meta_description = Some n)
       \/ (truthy (openGraph_image meta) <> None
           /\ querySelector doc meta_og_image = Some n))
    doc (updateMeta meta doc).
Proof.
  rewrite updateMeta_steps.
  set (d1 := apply_truthy (title meta) set_title doc).
  assert (H1 : patched (fun _ => False) doc d1).
  { subst d1. unfold apply_truthy. destruct (truthy (title meta));
      [apply patched_set_title | apply patched_refl]. }
  assert (Hq1 : forall sel, querySelector d1 sel = querySelector doc sel).
  { intros sel. subst d1. unfold apply_truthy.
    now destruct (truthy (title meta)). }
  set (d2 := apply_truthy (description meta) (upsert meta_description) d1).
  assert (H2 : patched
                 (fun n => truthy (description meta) <> None
                           /\ querySelector doc meta_description = Some n)
                 d1 d2).
  { subst d2. unfold apply_truthy.
    destruct (truthy (description meta)) as [d|].
    - apply (patched_weaken
               (fun n => querySelector d1 meta_description = Some n)).
      + intros n Hn. split; [discriminate|]. now rewrite <- Hq1.
      + apply patched_upsert. discriminate.
    - apply (patched_weaken (fun _ => False)); [intros n []|].
      apply patched_refl. }
  assert (Hq2 : querySelector d2 meta_og_image
                = querySelector doc meta_og_image).
  { subst d2. unfold apply_truthy.
    destruct (truthy (description meta)) as [d|]; [|apply Hq1].
    rewrite querySelector_upsert_other;
      [apply Hq1 | discriminate | discriminate | reflexivity]. }
  assert (H3 : patched
                 (fun n => truthy (openGraph_image meta) <> None
                           /\ querySelector doc meta_og_image = Some n)
                 d2 (apply_truthy (openGraph_image meta)
                       (upsert meta_og_image) d2)).
  { unfold apply_truthy.
    destruct (truthy (openGraph_image meta)) as [i|].
    - apply (patched_weaken
               (fun n => querySelector d2 meta_og_image = Some n)).
      + intros n Hn. split; [discriminate|]. now rewrite <- Hq2.
      + apply patched_upsert. discriminate.
    - apply (patched_weaken (fun _ => False)); [intros n []|].
      apply patched_refl. }
  pose proof (patched_trans _ _ _ _ _ (patched_trans _ _ _ _ _ H1 H2) H3) as H.
  revert H. apply patched_weaken. intros n [[[]|Hn]|Hn]; tauto.
Qed.

(** *** The number of elements *)

Lemma length_update_first {A : Type} (p : A -> bool) (f : A -> A)
    (l : list A) :
  length (update_first p f l) = length l.
Proof.
  induction l as [|a l IH]; [reflexivity|]. cbn [update_first].
  destruct (p a); cbn [length]; [reflexivity | now rewrite IH].
Qed.

Lemma length_elements_upsert (sel : selector) (content : string)
    (doc : document) :
  sel_attr sel <> "content" ->
  length (elements (upsert sel content doc))
  = length (elements doc)
    + match select doc sel with Some _ => 0 | None => 1 end.
Proof.
  intros Hs. rewrite elements_upsert by exact Hs. rewrite select_find.
  destruct (find (matches sel) (elements doc)).
  - rewrite length_update_first. lia.
  - unfold elements. rewrite !length_app. cbn [length]. lia.
Qed.

Lemma select_none (doc : document) (sel : selector) :
  select doc sel = None <-> querySelector doc sel = None.
Proof. rewrite select_find. symmetry. apply querySelector_none. Qed.

Lemma missing_upsert_other (sel other : selector) (content : string)
    (doc : document) :
  sel_attr sel <> "content" ->
  sel_attr other <> "content" ->
  matches other (new_meta sel content) = false ->
  match select (upsert sel content doc) other with Some _ => 0 | None => 1 end
  = match select doc other with Some _ => 0 | None => 1 end.
Proof.
  intros Hs Ho Hnew.
  pose proof (querySelector_upsert_other sel other content doc Hs Ho Hnew) as Hq.
  destruct (select doc other) eqn:H1,
           (select (upsert sel content doc) other) eqn:H2; try reflexivity.
  - apply select_none in H2. rewrite Hq in H2. apply select_none in H2.
    congruence.
  - apply select_none in H1. rewrite <- Hq in H1. apply select_none in H1.
    congruence.
Qed.

Lemma length_elements_updateMeta (meta : RouteMeta) (doc : document) :
  length (elements (updateMeta meta doc))
  = length (elements doc) + created meta doc.
Proof.
  rewrite updateMeta_steps. unfold created.
  set (d1 := apply_truthy (title meta) set_title doc).
  assert (H1 : elements d1 = elements doc
               /\ forall sel, select d1 sel = select doc sel).
  { subst d1. unfold apply_truthy. now destruct (truthy (title meta)). }
  destruct H1 as [He1 Hs1]. rewrite <- He1, <- !Hs1.
  unfold apply_truthy at 1 2.
  destruct (truthy (description meta)) as [d|],
           (truthy (openGraph_image meta)) as [i|].
  - rewrite !length_elements_upsert by discriminate.
    rewrite missing_upsert_other; [lia|discriminate|discriminate|reflexivity].
  - rewrite length_elements_upsert by discriminate.
    destruct (select d1 meta_description); lia.
  - rewrite length_elements_upsert by discriminate.
    destruct (select d1 meta_description); lia.
  - destruct (select d1 meta_description); lia.
Qed.

(** *** Responses one after the other *)

Lemma effect_runs_arrived (fetch_json : string -> completion RouteMeta)
    (pathnames : list string) (doc : document) :
  effect_runs fetch_json pathnames doc
  = apply_responses (arrived fetch_json pathnames) doc.
Proof.
  revert doc. induction pathnames as [|p ps IH]; intros doc; [reflexivity|].
  unfold effect_runs in *. cbn [fold_left arrived]. rewrite IH.
  unfold MetadataHydrator. destruct (fetch_json _); reflexivity.
Qed.

Lemma content_description_step (meta : RouteMeta) (doc : document) :
  no_shared_element doc = true ->
  content_of (updateMeta meta doc) meta_description
  = match truthy (description meta) with
    | Some d => Some d
    | None => content_of doc meta_description
    end.
Proof.
  intros H. destruct (truthy (description meta)) as [d|] eqn:Hd.
  - now apply content_description_updateMeta.
  - unfold content_of. now rewrite select_description_updateMeta.
Qed.

Lemma content_og_image_step (meta : RouteMeta) (doc : document) :
  no_shared_element doc = true ->
  content_of (updateMeta meta doc) meta_og_image
  = match truthy (openGraph_image meta) with
    | Some i => Some i
    | None => content_of doc meta_og_image
    end.
Proof.
  intros H. destruct (truthy (openGraph_image meta)) as [i|] eqn:Hi.
  - now apply content_og_image_updateMeta.
  - unfold content_of. now rewrite select_og_image_updateMeta.
Qed.

Lemma apply_responses_shown (responses : list RouteMeta) :
  forall doc : document,
    no_shared_element doc = true ->
    let doc' := apply_responses responses doc in
    doc_title doc'
    = match latest title responses with
      | Some t => t
      | None => doc_title doc
      end
    /\ content_of doc' meta_description
       = match latest description responses with
         | Some d => Some d
         | None => content_of doc meta_description
         end
    /\ content_of doc' meta_og_image
       = match latest openGraph_image responses with
         | Some i => Some i
         | None => content_of doc meta_og_image
         end.
Proof.
  induction responses as [|m rs IH]; intros doc Hdoc doc'; subst doc';
    [repeat split|].
  change (apply_responses (m :: rs) doc)
    with (apply_responses rs (updateMeta m doc)).
  cbn [latest].
  destruct (IH (updateMeta m doc) (no_shared_updateMeta m doc Hdoc))
    as (Ht & Hd & Hi).
  rewrite Ht, Hd, Hi.
  rewrite doc_title_updateMeta, content_description_step,
    content_og_image_step by exact Hdoc.
  split; [|split].
  - now destruct (latest title rs), (truthy (title m)).
  - now destruct (latest description rs), (truthy (description m)).
  - now destruct (latest openGraph_image rs), (truthy (openGraph_image m)).
Qed.

End FrameFacts.

(** * Facts about the path of the README's helper *)

Module ReadmeFacts.

Import RegExpFacts.

Lemma count_char_app (a : ascii) (s t : chars) :
  count_char a (s ++ t) = count_char a s + count_char a t.
Proof.
  induction s as [|b s IH]; cbn [app count_char]; [reflexivity|].
  rewrite IH. lia.
Qed.

Lemma count_slashes_app (s t : string) :
  count_slashes (s ++ t) = count_slashes s + count_slashes t.
Proof.
  unfold count_slashes. now rewrite list_ascii_of_string_app, count_char_app.
Qed.

Lemma count_slashes_value (v : string) :
  segment_value v = true -> count_slashes v = 0.
Proof.
  unfold segment_value, slash_free, count_slashes. intros H.
  apply andb_true_iff in H as [_ H].
  induction (list_ascii_of_string v) as [|a l IH]; [reflexivity|].
  cbn [forallb count_char] in *. apply andb_true_iff in H as [Ha Hl].
  unfold non_slash in Ha. apply negb_true_iff in Ha. now rewrite Ha, IH.
Qed.

Lemma get_property_segment (ps : Record_ param_value) (key : string) :
  segment_params ps = true ->
  In key (Object_keys ps) ->
  exists v, get_property ps key = Some (inl v) /\ segment_value v = true.
Proof.
  induction ps as [|[k x] ps IH]; intros Hps Hin; [destruct Hin|].
  cbn [segment_params forallb snd] in Hps.
  apply andb_true_iff in Hps as [Hx Hps].
  cbn [get_property]. destruct (String.eqb_spec k key) as [->|Hne].
  - destruct x as [v|l]; [|discriminate]. now exists v.
  - destruct Hin as [Hin|Hin]; [cbn in Hin; congruence|]. now apply IH.
Qed.

(* Each key adds one slash and the value of its parameter. *)
Lemma count_slashes_fold (ps : Record_ param_value) (keys : list string)
    (path : string) :
  segment_params ps = true ->
  (forall key, In key keys -> In key (Object_keys ps)) ->
  count_slashes
    (fold_left
       (fun path key =>
          (path ++ "/" ++ template_string (get_property ps key))%string)
       keys path)
  = count_slashes path + length keys.
Proof.
  intros Hps. revert path. induction keys as [|key keys IH]; intros path Hin.
  - cbn [fold_left length]. lia.
  - cbn [fold_left length]. rewrite IH by (intros k Hk; apply Hin; now right).
    destruct (get_property_segment ps key Hps) as (v & Hget & Hv);
      [apply Hin; now left|].
    rewrite Hget. cbn [template_string].
    rewrite !count_slashes_app, (count_slashes_value v Hv).
    change (count_slashes "/") with 1. lia.
Qed.

Lemma fold_not_empty (ps : Record_ param_value) (keys : list string)
    (path : string) :
  path <> "" \/ keys <> [] ->
  fold_left
    (fun path key =>
       (path ++ "/" ++ template_string (get_property ps key))%string)
    keys path <> "".
Proof.
  revert path. induction keys as [|key keys IH]; intros path H.
  - cbn. destruct H as [H|H]; congruence.
  - cbn [fold_left]. apply IH. left. destruct path; discriminate.
Qed.

Lemma count_slashes_getCurrentPath (ps : Record_ param_value) :
  ps <> [] ->
  segment_params ps = true ->
  count_slashes (getCurrentPath (Some ps)) = length ps.
Proof.
  intros Hne Hps. unfold getCurrentPath.
  destruct ps as [|kv ps]; [congruence|].
  cbn [Object_keys map length Nat.eqb negb].
  set (keys := fst kv :: map fst ps).
  assert (Hkeys : keys <> []) by (subst keys; discriminate).
  pose proof (fold_not_empty (kv :: ps) keys "" (or_intror Hkeys)) as Hfold.
  apply String.eqb_neq in Hfold. rewrite Hfold.
  rewrite count_slashes_fold; [|exact Hps|trivial].
  subst keys. cbn [length]. now rewrite length_map.
Qed.

End ReadmeFacts.

(** * Further properties of the resolver *)

(** X1.  For a route whose characters outside its tokens are ordinary
    ones, the whole pipeline of matchRoute (the replacement of the tokens,
    the construction of the regular expression, its backtracking search
    over the path) decides [route_matches]: the path has the literal
    characters of the route, and one or more characters other than a slash
    for each token. *)
Theorem X1_plain_route_matches_by_pieces :
  forall route path : string,
    plain_route route = true ->
    RegExp_test (route_pattern route) path = Normal (route_matches route path).
Proof. exact plain_route_pattern. Qed.

Lemma X1_witness :
  RegExp_test (route_pattern "/category/:cat/product/:id")
    "/category/electronics/product/123" = Normal true
  /\ RegExp_test (route_pattern "/category/:cat/product/:id")
       "/category/electronics/product/" = Normal false.
Proof.
  split.
  - exact (X1_plain_route_matches_by_pieces "/category/:cat/product/:id"
             "/category/electronics/product/123" eq_refl).
  - exact (X1_plain_route_matches_by_pieces "/category/:cat/product/:id"
             "/category/electronics/product/" eq_refl).
Defined.

(** X3.  The path acts on the result only through the tests of the
    patterns: two paths on which the pattern of every key gives the same
    answer get the same result, resolver call included.  The text the
    wildcard groups matched is never read. *)
Theorem X3_path_only_selects :
  forall (World : Type) (config : MetadataConfig World) (path1 path2 : string)
         (ps : option (Record_ string)) (w : World),
    (forall route, In route (Object_keys (routes config)) ->
       RegExp_test (route_pattern route) path1
       = RegExp_test (route_pattern route) path2) ->
    resolveMetadata config path1 ps w = resolveMetadata config path2 ps w.
Proof.
  intros World config path1 path2 ps w H. unfold resolveMetadata, matchRoute.
  now rewrite (matchRoute_keys_same path1 path2 _ H).
Qed.

Lemma X3_witness :
  resolveMetadata blog_config "/blog/hello-world" None 0
  = resolveMetadata blog_config "/blog/other-post" None 0.
Proof.
  refine (X3_path_only_selects nat blog_config "/blog/hello-world"
            "/blog/other-post" None 0 _).
  intros route [<-|[<-|[]]]; reflexivity.
Defined.

(** X4.  Whatever the configuration and the path, resolveMetadata ends in
    one of four ways: rejected by the constructor of the pattern of one of
    the keys (or, for a key outside the modelled part of the pattern
    language, not modelled); with the defaults, or the empty record, when
    no key or the empty key was selected; or with the merge for an entry
    that is in the configuration, under a key whose pattern tests true on
    the path.  The value read under the selected key is never missing. *)
Theorem X4_result_comes_from_config :
  forall (World : Type) (config : MetadataConfig World) (path : string)
         (ps : option (Record_ string)) (w : World),
    (exists e route,
        In route (Object_keys (routes config))
        /\ RegExp_new (route_pattern route) = Throw e
        /\ resolveMetadata config path ps w = (Throw e, w))
    \/ (exists route,
          In route (Object_keys (routes config))
          /\ RegExp_new (route_pattern route) = Unmodelled
          /\ resolveMetadata config path ps w = (Unmodelled, w))
    \/ ((matchRoute path config = Normal None
         \/ matchRoute path config = Normal (Some ""))
        /\ resolveMetadata config path ps w
           = (Normal (match defaults config with
                      | Some d => d
                      | None => empty_meta
                      end), w))
    \/ (exists route entry,
          route <> ""
          /\ In (route, entry) (routes config)
          /\ RegExp_test (route_pattern route) path = Normal true
          /\ resolveMetadata config path ps w
             = resolved_entry config entry ps w).
Proof.
  intros World config path ps w.
  pose proof (matchRoute_keys_fails path (Object_keys (routes config))) as Hf.
  destruct (matchRoute path config) as [[route|]| e |] eqn:Hm;
    unfold matchRoute in Hm; rewrite Hm in Hf.
  - destruct (String.eqb_spec route "") as [->|Hne].
    + right. right. left. split; [now right|].
      now apply resolveMetadata_empty_key.
    + right. right. right.
      destruct (matchRoute_keys_some _ _ _ Hm)
        as (before & after & Hkeys & _ & Htest).
      destruct (get_property_key (routes config) route) as [entry Hget].
      { rewrite Hkeys. apply in_or_app. right. now left. }
      exists route, entry. split; [exact Hne|].
      split; [now apply get_property_In|]. split; [exact Htest|].
      now apply resolveMetadata_matched with (route := route).
  - right. right. left. split; [now left|].
    now apply resolveMetadata_unmatched.
  - left. destruct Hf as (r & Hin & Hnew). exists e, r.
    split; [exact Hin|]. split; [exact Hnew|].
    unfold resolveMetadata, matchRoute. now rewrite Hm.
  - right. left. destruct Hf as (r & Hin & Hnew). exists r.
    split; [exact Hin|]. split; [exact Hnew|].
    unfold resolveMetadata, matchRoute. now rewrite Hm.
Qed.

(** X5.  A key whose pattern the constructor rejects makes resolveMetadata
    reject, with the constructor's error, for every path that no earlier
    key matches: no resolver is called, and neither the routes after that
    key nor the defaults are reached.  A key that starts with a star is
    such a key. *)
Theorem X5_invalid_key_rejects :
  forall (World : Type) (config : MetadataConfig World)
         (before after : Record_ (RouteEntry World)) (route : string)
         (entry : RouteEntry World) (e : thrown),
    routes config = before ++ (route, entry) :: after ->
    RegExp_new (route_pattern route) = Throw e ->
    (forall (path : string) (ps : option (Record_ string)) (w : World),
        (forall r, In r (Object_keys before) ->
           RegExp_test (route_pattern r) path = Normal false) ->
        resolveMetadata config path ps w = (Throw e, w))
    /\ (forall rest : string,
          RegExp_new (route_pattern ("*" ++ rest)) = Throw SyntaxError).
Proof.
  intros World config before after route entry e Hroutes Hnew. split.
  - intros path ps w Hbefore. unfold resolveMetadata, matchRoute.
    rewrite Hroutes, Object_keys_app. cbn [Object_keys map fst].
    rewrite (matchRoute_keys_throw path _ _ route e Hbefore); [reflexivity|].
    unfold RegExp_test. now rewrite Hnew.
  - intros rest. rewrite route_pattern_tokens. unfold substitute_tokens.
    cbn [String.append list_ascii_of_string wildcard_tokens Ascii.eqb
         Bool.eqb andb string_of_list_ascii].
    unfold RegExp_new. cbn [list_ascii_of_string length].
    set (n := length _).
    replace (3 * S (S n) + 3) with (S (S (S (S (3 * n + 5))))) by lia.
    reflexivity.
Qed.

Lemma X5_witness :
  resolveMetadata star_config "/pricing" None tt = (Throw SyntaxError, tt).
Proof.
  refine (proj1 (X5_invalid_key_rejects unit star_config
                   [("/about", Static (titled_meta "About"))] [] "*"
                   (Static (titled_meta "Fallback")) SyntaxError
                   eq_refl eq_refl)
            "/pricing" None tt _).
  intros r [<-|[]]. reflexivity.
Defined.

(** X6.  A key is never selected when a key listed before it accepts
    every path it accepts: whatever the path, matchRoute does not return
    it. *)
Theorem X6_shadowed_key_never_selected :
  forall (World : Type) (config : MetadataConfig World)
         (before after : Record_ (RouteEntry World)) (first second : string)
         (entry : RouteEntry World),
    routes config = before ++ (first, entry) :: after ->
    ~ In second (Object_keys before) ->
    first <> second ->
    (forall path, RegExp_test (route_pattern second) path = Normal true ->
                  RegExp_test (route_pattern first) path = Normal true) ->
    forall path : string, matchRoute path config <> Normal (Some second).
Proof.
  intros World config before after first second entry Hroutes Hnot Hne Hsub
    path Hm.
  unfold matchRoute in Hm.
  destruct (matchRoute_keys_some _ _ _ Hm) as (b & a & Hkeys & Hb & Htest).
  rewrite Hroutes, Object_keys_app in Hkeys. cbn [Object_keys map fst] in Hkeys.
  apply In_before in Hkeys; [|exact Hnot|exact Hne].
  apply Hb in Hkeys. apply Hsub in Htest. congruence.
Qed.

Lemma X6_witness :
  matchRoute "/blog/featured" shadowed_config <> Normal (Some "/blog/featured").
Proof.
  refine (X6_shadowed_key_never_selected unit shadowed_config [] _
            "/blog/:slug" "/blog/featured" (Static (titled_meta "Post"))
            eq_refl _ _ _ "/blog/featured").
  - intros [].
  - discriminate.
  - intros path.
    rewrite (plain_route_pattern "/blog/featured" path eq_refl).
    rewrite (PathFacts.route_matches_literal "/blog/featured" path eq_refl).
    intros H. injection H as H. apply String.eqb_eq in H. now subst path.
Defined.

(** X7.  The pattern of a plain route tests false on every path that has
    not as many slashes as the route key: a token never reads across a
    slash, so a deeper path, or one with a slash at its end, is not
    matched. *)
Theorem X7_same_number_of_slashes :
  forall route path : string,
    plain_route route = true ->
    count_slashes path <> count_slashes route ->
    RegExp_test (route_pattern route) path = Normal false.
Proof.
  intros route path Hplain Hcount.
  rewrite plain_route_pattern by exact Hplain. f_equal.
  destruct (route_matches route path) eqn:Hm; [|reflexivity].
  exfalso. apply Hcount. unfold route_matches in Hm.
  apply PathFacts.pieces_match_slashes in Hm.
  unfold count_slashes. now rewrite Hm, PathFacts.pieces_of_slashes.
Qed.

Lemma X7_witness :
  RegExp_test (route_pattern "/blog/:slug") "/blog/2024/hello" = Normal false
  /\ RegExp_test (route_pattern "/blog/:slug") "/blog/hello/" = Normal false.
Proof.
  split.
  - refine (X7_same_number_of_slashes "/blog/:slug" "/blog/2024/hello"
              eq_refl _). discriminate.
  - refine (X7_same_number_of_slashes "/blog/:slug" "/blog/hello/"
              eq_refl _). discriminate.
Defined.

(** X8.  The pattern of a key without tokens and without pattern syntax
    tests true on one path only, the key itself, character for character:
    no other case of letters, no slash more or less at the end, no query
    string. *)
Theorem X8_literal_key_matches_itself_only :
  forall route path : string,
    literal_key route = true ->
    RegExp_test (route_pattern route) path = Normal (path =? route)%string.
Proof.
  intros route path H.
  rewrite plain_route_pattern by now apply PathFacts.literal_key_plain.
  now rewrite PathFacts.route_matches_literal.
Qed.

Lemma X8_witness :
  RegExp_test (route_pattern "/about") "/about" = Normal true
  /\ RegExp_test (route_pattern "/about") "/about/" = Normal false
  /\ RegExp_test (route_pattern "/about") "/About" = Normal false
  /\ RegExp_test (route_pattern "/about") "/about?ref=home" = Normal false.
Proof.
  split; [|split; [|split]];
    [ exact (X8_literal_key_matches_itself_only "/about" "/about" eq_refl)
    | exact (X8_literal_key_matches_itself_only "/about" "/about/" eq_refl)
    | exact (X8_literal_key_matches_itself_only "/about" "/About" eq_refl)
    | exact (X8_literal_key_matches_itself_only "/about" "/about?ref=home"
               eq_refl) ].
Defined.

(** X9.  The paths on which the pattern of a plain route tests true are
    exactly the paths obtained from the key by writing, in the place of
    each token, a value that is not empty and has no slash. *)
Theorem X9_matches_are_the_filled_keys :
  forall route path : string,
    plain_route route = true ->
    RegExp_test (route_pattern route) path = Normal true
    <-> exists values : list string,
          length values = count_tokens route
          /\ forallb segment_value values = true
          /\ path = fill_tokens route values.
Proof.
  intros route path Hplain.
  rewrite plain_route_pattern by exact Hplain. unfold route_matches. split.
  - intros H. injection H as H.
    destruct (PathFacts.matches_fill _ _ H) as (values & Hlen & Hvals & Hs).
    exists values. split; [exact Hlen|]. split; [exact Hvals|].
    unfold fill_tokens. rewrite <- Hs.
    now rewrite string_of_list_ascii_of_string.
  - intros (values & Hlen & Hvals & ->). f_equal. unfold fill_tokens.
    rewrite list_ascii_of_string_of_list_ascii.
    apply PathFacts.fill_matches;
      [apply well_formed_pieces | exact Hlen | exact Hvals].
Qed.

Lemma X9_witness :
  RegExp_test (route_pattern "/category/:cat/product/:id")
    "/category/electronics/product/123" = Normal true.
Proof.
  refine (proj2 (X9_matches_are_the_filled_keys "/category/:cat/product/:id"
                   "/category/electronics/product/123" eq_refl) _).
  exists ["electronics"; "123"]. split; [|split]; reflexivity.
Defined.

(** X10.  A dot in a key is not an ordinary character: in a key made of
    ordinary characters and dots, each dot stands for any one character
    that does not end a line, so the pattern of ['/sitemap.xml'] also
    tests true on ['/sitemap-xml']. *)
Theorem X10_dot_stands_for_any_character :
  forall route path : string,
    dotted route = true ->
    RegExp_test (route_pattern route) path
    = Normal (dot_match (list_ascii_of_string route)
                (list_ascii_of_string path)).
Proof. exact SyntaxFacts.dotted_route_pattern. Qed.

Lemma X10_witness :
  RegExp_test (route_pattern "/sitemap.xml") "/sitemap.xml" = Normal true
  /\ RegExp_test (route_pattern "/sitemap.xml") "/sitemap-xml" = Normal true
  /\ RegExp_test (route_pattern "/sitemap.xml") "/sitemapxml" = Normal false.
Proof.
  split; [|split];
    [ exact (X10_dot_stands_for_any_character "/sitemap.xml" "/sitemap.xml"
               eq_refl)
    | exact (X10_dot_stands_for_any_character "/sitemap.xml" "/sitemap-xml"
               eq_refl)
    | exact (X10_dot_stands_for_any_character "/sitemap.xml" "/sitemapxml"
               eq_refl) ].
Defined.

(** X11.  A star at the end of a key is not a catch-all: after a text of
    ordinary characters it repeats the character before it, so the pattern
    tests true exactly on that text followed by any number of copies of
    that character.  The key ['/blog/*'] matches ['/blog'], ['/blog/'] and
    ['/blog//'], and no post under ['/blog/']. *)
Theorem X11_star_repeats_the_character_before :
  forall (pre : string) (a : ascii) (path : string),
    literal_key pre = true ->
    ordinary a = true ->
    RegExp_test (route_pattern (pre ++ String a "*")) path = Normal true
    <-> exists k : nat,
          path = (pre ++ string_of_list_ascii (repeat a k))%string.
Proof.
  intros pre a path Hpre Ha.
  rewrite SyntaxFacts.star_route_pattern by assumption.
  destruct (strip_prefix (list_ascii_of_string pre) (list_ascii_of_string path))
    as [s|] eqn:Hstrip.
  - apply RegExpFacts.strip_prefix_Some in Hstrip. split.
    + intros H. injection H as H. apply SyntaxFacts.forallb_repeat in H.
      exists (length s). rewrite <- H.
      rewrite <- (string_of_list_ascii_of_string pre).
      rewrite <- RegExpFacts.string_of_list_ascii_app, <- Hstrip.
      now rewrite string_of_list_ascii_of_string.
    + intros (k & Hk). f_equal.
      rewrite Hk, RegExpFacts.list_ascii_of_string_app in Hstrip.
      rewrite list_ascii_of_string_of_list_ascii in Hstrip.
      apply app_inv_head in Hstrip. subst s.
      apply SyntaxFacts.forallb_repeat. now rewrite repeat_length.
  - split; [discriminate|]. intros (k & Hk). exfalso.
    rewrite Hk, RegExpFacts.list_ascii_of_string_app in Hstrip.
    now rewrite RegExpFacts.strip_prefix_app in Hstrip.
Qed.

Lemma X11_witness :
  RegExp_test (route_pattern "/blog/*") "/blog//" = Normal true.
Proof.
  refine (proj2 (X11_star_repeats_the_character_before "/blog" "/" "/blog//"
                   eq_refl eq_refl) _).
  now exists 2.
Defined.

(** X12.  The path the README's [generateMetadata] resolves is made of the
    values of the page's parameters only, one slash before each: the
    static segments of the page are not in it, and a page without
    parameters is resolved as ['/'].  So the pattern of a plain key whose
    number of slashes is not the number of parameters tests false on it,
    and when no other key matches, the page gets the defaults: the page
    ['/blog/[slug]'] is not resolved by the key ['/blog/:slug']. *)
Theorem X12_generateMetadata_sees_parameter_values_only :
  forall (World : Type) (config : MetadataConfig World)
         (ps : Record_ param_value) (route : string) (w : World),
    ps <> [] ->
    segment_params ps = true ->
    plain_route route = true ->
    count_slashes route <> length ps ->
    (forall r, In r (Object_keys (routes config)) -> r <> route ->
       RegExp_test (route_pattern r) (getCurrentPath (Some ps)) = Normal false) ->
    count_slashes (getCurrentPath (Some ps)) = length ps
    /\ RegExp_test (route_pattern route) (getCurrentPath (Some ps))
       = Normal false
    /\ generateMetadata config (Some ps) w
       = (Normal (match defaults config with
                  | Some d => d
                  | None => empty_meta
                  end), w)
    /\ generateMetadata config None w = resolveMetadata config "/" None w
    /\ generateMetadata config (Some []) w = resolveMetadata config "/" None w.
Proof.
  intros World config ps route w Hne Hps Hplain Hcount Hothers.
  pose proof (ReadmeFacts.count_slashes_getCurrentPath ps Hne Hps) as Hpath.
  assert (Hroute : RegExp_test (route_pattern route) (getCurrentPath (Some ps))
                   = Normal false).
  { rewrite plain_route_pattern by exact Hplain. f_equal.
    destruct (route_matches route (getCurrentPath (Some ps))) eqn:Hm;
      [|reflexivity].
    exfalso. apply Hcount. unfold route_matches in Hm.
    apply PathFacts.pieces_match_slashes in Hm.
    rewrite PathFacts.pieces_of_slashes in Hm.
    unfold count_slashes in *. congruence. }
  split; [exact Hpath|]. split; [exact Hroute|]. split; [|split; reflexivity].
  unfold generateMetadata. apply resolveMetadata_unmatched.
  apply matchRoute_keys_none. intros r Hr.
  destruct (String.eqb_spec r route) as [->|Hdiff]; [exact Hroute|].
  now apply Hothers.
Qed.

Lemma X12_witness :
  getCurrentPath (Some [("slug", inl "hello-world")]) = "/hello-world"
  /\ generateMetadata readme_config (Some [("slug", inl "hello-world")]) 0
     = (Normal (titled_meta "My Awesome Website"), 0).
Proof.
  split; [reflexivity|].
  refine (proj1 (proj2 (proj2
    (X12_generateMetadata_sees_parameter_values_only nat readme_config
       [("slug", inl "hello-world")] "/blog/:slug" 0 _ eq_refl eq_refl _ _)))).
  - discriminate.
  - discriminate.
  - intros r [<-|[<-|[<-|[]]]] Hdiff; reflexivity.
Defined.

(** * Further properties of the hydrator *)

(** X13.  On a document in which no element carries both
    [name="description"] and [property="og:image"], applying a response
    leaves the document exactly as it is if and only if the document
    already shows every field of the response that is present and not
    empty: the title is that title, and the description and og:image
    elements exist with that content.  A response with none of the three
    fields changes nothing. *)
Theorem X13_unchanged_iff_already_shown :
  forall (meta : RouteMeta) (doc : document),
    no_shared_element doc = true ->
    updateMeta meta doc = doc
    <-> (forall t, truthy (title meta) = Some t -> doc_title doc = t)
        /\ (forall d, truthy (description meta) = Some d ->
                      content_of doc meta_description = Some d)
        /\ (forall i, truthy (openGraph_image meta) = Some i ->
                      content_of doc meta_og_image = Some i).
Proof.
  intros meta doc Hdoc. split.
  - intros H. split; [|split].
    + intros t Ht. rewrite <- H, doc_title_updateMeta. now rewrite Ht.
    + intros d Hd. rewrite <- H. now apply content_description_updateMeta.
    + intros i Hi. rewrite <- H. now apply content_og_image_updateMeta.
  - intros (Ht & Hd & Hi). rewrite updateMeta_steps. unfold apply_truthy.
    assert (H1 : match truthy (title meta) with
                 | Some s => set_title s doc
                 | None => doc
                 end = doc).
    { destruct (truthy (title meta)) as [t|]; [|reflexivity].
      rewrite <- (Ht t eq_refl). apply PatchFacts.set_title_same. }
    rewrite H1.
    assert (H2 : match truthy (description meta) with
                 | Some s => upsert meta_description s doc
                 | None => doc
                 end = doc).
    { destruct (truthy (description meta)) as [d|]; [|reflexivity].
      apply PatchFacts.upsert_same. now apply Hd. }
    rewrite H2.
    destruct (truthy (openGraph_image meta)) as [i|]; [|reflexivity].
    apply PatchFacts.upsert_same. now apply Hi.
Qed.

Lemma X13_witness :
  updateMeta (titled_meta "") old_page = old_page
  /\ updateMeta applied_meta (updateMeta applied_meta old_page)
     = updateMeta applied_meta old_page.
Proof.
  split.
  - refine (proj2 (X13_unchanged_iff_already_shown (titled_meta "") old_page
                     eq_refl) _).
    split; [|split]; discriminate.
  - refine (proj2 (X13_unchanged_iff_already_shown applied_meta
                     (updateMeta applied_meta old_page) eq_refl) _).
    split; [|split]; intros v [= <-]; reflexivity.
Defined.

(** X14.  Applying the same response twice is the same as applying it
    once, on every document: a second run of the effect for the same path
    name and the same response creates no second element and changes
    nothing. *)
Theorem X14_hydration_is_idempotent :
  forall (fetch_json : string -> completion RouteMeta) (pathname : string)
         (doc : document),
    MetadataHydrator fetch_json pathname
      (MetadataHydrator fetch_json pathname doc)
    = MetadataHydrator fetch_json pathname doc
    /\ forall meta : RouteMeta,
         updateMeta meta (updateMeta meta doc) = updateMeta meta doc.
Proof.
  intros fetch_json pathname doc. split.
  - unfold MetadataHydrator.
    destruct (fetch_json _) as [meta| |]; try reflexivity.
    apply PatchFacts.updateMeta_twice.
  - intros meta. apply PatchFacts.updateMeta_twice.
Qed.

(** X15.  What a response can change in the elements of the document:
    the number of elements grows by one for each of the two fields that is
    present, not empty, and has no element yet, and by nothing else; no
    element is added after head; every element stays at its place with
    its tag and all its attributes but [content]; and an element that is
    not the first match of the selector of a field the response carries
    stays exactly as it is.  Of several description elements, only the
    first is ever written. *)
Theorem X15_only_the_first_matches_change :
  forall (meta : RouteMeta) (doc : document),
    let doc' := updateMeta meta doc in
    length (elements doc') = length (elements doc) + created meta doc
    /\ length (body doc') = length (body doc)
    /\ forall (n : node) (e : element),
         element_at doc n = Some e ->
         exists e' : element,
           element_at doc' n = Some e'
           /\ same_but_content e e'
           /\ ((truthy (description meta) = None
                \/ querySelector doc meta_description <> Some n) ->
               (truthy (openGraph_image meta) = None
                \/ querySelector doc meta_og_image <> Some n) ->
               e' = e).
Proof.
  intros meta doc doc'. subst doc'.
  split; [apply FrameFacts.length_elements_updateMeta|].
  destruct (FrameFacts.patched_updateMeta meta doc) as [Hbody H].
  split; [exact Hbody|]. intros n e He.
  destruct (H n e He) as (e' & He' & Hs & Hk). exists e'.
  split; [exact He'|]. split; [exact Hs|]. intros Hd Hi. apply Hk.
  intros [[H1 H2]|[H1 H2]]; [destruct Hd|destruct Hi]; congruence.
Qed.

Lemma X15_witness :
  element_at (updateMeta full_meta twice_described) (InHead 1)
  = element_at twice_described (InHead 1).
Proof.
  destruct (proj2 (proj2 (X15_only_the_first_matches_change full_meta
                            twice_described))
              (InHead 1)
              {| tagName := "meta";
                 attributes := [("name", "description"); ("content", "second")] |}
              eq_refl) as (e' & He' & _ & Hk).
  rewrite He'. cbn [element_at twice_described head nth_error].
  f_equal. apply Hk; right; discriminate.
Defined.

(** X16.  After the responses of any number of runs have been applied, in
    the order in which they arrived, the document shows, for each of the
    three fields, the value of the last response that carried the field,
    and what it showed before when none did: the title, the content of the
    description element and the content of the og:image element.  A
    request that fails changes nothing.  (On a document in which no
    element carries both attributes.) *)
Theorem X16_last_response_with_a_field_wins :
  forall (fetch_json : string -> completion RouteMeta)
         (pathnames : list string) (doc : document),
    no_shared_element doc = true ->
    let responses := arrived fetch_json pathnames in
    let doc' := effect_runs fetch_json pathnames doc in
    doc_title doc'
    = match latest title responses with
      | Some t => t
      | None => doc_title doc
      end
    /\ content_of doc' meta_description
       = match latest description responses with
         | Some d => Some d
         | None => content_of doc meta_description
         end
    /\ content_of doc' meta_og_image
       = match latest openGraph_image responses with
         | Some i => Some i
         | None => content_of doc meta_og_image
         end.
Proof.
  intros fetch_json pathnames doc Hdoc responses doc'. subst responses doc'.
  rewrite FrameFacts.effect_runs_arrived.
  now apply FrameFacts.apply_responses_shown.
Qed.

Lemma X16_witness :
  doc_title (effect_runs two_routes ["/post"; "/next"; "/missing"] old_page)
  = "Next"
  /\ content_of (effect_runs two_routes ["/post"; "/next"; "/missing"] old_page)
       meta_description
     = Some "About the post".
Proof.
  pose proof (X16_last_response_with_a_field_wins two_routes
                ["/post"; "/next"; "/missing"] old_page eq_refl) as (Ht & Hd & _).
  split; [exact Ht|exact Hd].
Defined.

(** X17.  When the first description element of the document is also its
    first og:image element, a response that carries both fields leaves
    the image in its content: the og:image block runs after the
    description block and writes the same element, so the description is
    lost. *)
Theorem X17_shared_element_ends_with_the_image :
  forall (meta : RouteMeta) (doc : document) (n : node) (d i : string),
    querySelector doc meta_description = Some n ->
    querySelector doc meta_og_image = Some n ->
    truthy (description meta) = Some d ->
    truthy (openGraph_image meta) = Some i ->
    content_of (updateMeta meta doc) meta_description = Some i
    /\ content_of (updateMeta meta doc) meta_og_image = Some i.
Proof.
  intros meta doc n d i Hqd Hqi Hd Hi.
  split; [|now apply content_og_image_updateMeta].
  rewrite updateMeta_steps. unfold apply_truthy. rewrite Hd, Hi.
  set (d1 := match truthy (title meta) with
             | Some s => set_title s doc
             | None => doc
             end).
  assert (Hq1 : forall sel, querySelector d1 sel = querySelector doc sel)
    by (intros sel; subst d1; now destruct (truthy (title meta))).
  rewrite (PatchFacts.upsert_found meta_description d d1 n)
    by now rewrite Hq1.
  rewrite (PatchFacts.upsert_found meta_og_image i _ n)
    by (rewrite PatchFacts.querySelector_setAttribute_at;
        [now rewrite Hq1 | discriminate]).
  rewrite PatchFacts.setAttribute_at_twice.
  unfold content_of, select.
  rewrite PatchFacts.querySelector_setAttribute_at by discriminate.
  rewrite Hq1, Hqd, PatchFacts.element_at_setAttribute_at.
  destruct (PatchFacts.node_eq_dec n n) as [_|]; [|congruence].
  assert (He : exists e, element_at d1 n = Some e).
  { assert (Hsel : select d1 meta_description <> None).
    { rewrite select_find. intros Hnone.
      apply querySelector_none in Hnone. rewrite Hq1 in Hnone. congruence. }
    unfold select in Hsel. rewrite Hq1, Hqd in Hsel.
    destruct (element_at d1 n) as [e|]; [now exists e|congruence]. }
  destruct He as [e He]. rewrite He. cbn [option_map setAttribute attributes].
  rewrite getAttribute_set. reflexivity.
Qed.

Lemma X17_witness :
  content_of (updateMeta full_meta shared_page) meta_description
  = Some "/post.png".
Proof.
  exact (proj1 (X17_shared_element_ends_with_the_image full_meta shared_page
                  (InHead 0) "About the post" "/post.png"
                  eq_refl eq_refl eq_refl eq_refl)).
Defined.
